(** * thor_devkit.transaction: a shallow embedding and its properties

    The module [thor_devkit/transaction.py] defines VeChain's multi-clause
    transaction: the value objects [Clause], [Reserved] and [Body], the
    intrinsic-gas estimator, and the [Transaction] class with the canonical
    form of the reserved field, the signing hash, the recovery accessors and
    the encode/decode orchestration.

    Python values are embedded as follows: [int] is [Z], [str] is [string],
    [bytes] is [list byte], [None]-able values are [option], a raised
    exception is the [Raise] branch of [result]. *)

From Stdlib Require Import ZArith NArith Lia Ascii String.
From Stdlib.Strings Require Byte.
From stdpp Require Import base decidable option list strings.

Local Open Scope Z_scope.

(** ** Python values *)

Abbreviation byte := Byte.byte.
Abbreviation bytes := (list Byte.byte).

#[global] Instance byte_eq_dec : EqDecision byte := Byte.byte_eq_dec.

(** Exceptions.  [Exception msg] is Python's [Exception(msg)], raised twice
    by the module itself; the other constructors are the built-in errors and
    the two error classes of the codec. *)
Inductive exn : Type :=
  | IndexError
  | KeyError
  | ValueError
  | SerializationError
  | DeserializationError
  | AttributeError
  | TypeError
  | Exception (msg : string).

Inductive result (A : Type) : Type :=
  | Ok (a : A)
  | Raise (e : exn).
Arguments Ok {A} a.
Arguments Raise {A} e.

#[global] Instance result_ret : MRet result := λ A a, Ok a.
#[global] Instance result_bind : MBind result := λ A B f m,
  match m with
  | Ok a => f a
  | Raise e => Raise e
  end.

(** A collaborator that fails does so with one fixed exception. *)
Definition lift {A} (e : exn) (o : option A) : result A :=
  match o with
  | Some a => Ok a
  | None => Raise e
  end.

(** [try: body except: handler] with a bare [except]. *)
Definition try_except {A} (body : result A) (handler : result A) : result A :=
  match body with
  | Ok a => Ok a
  | Raise _ => handler
  end.

(** [for x in xs: s = body x s], stopping at the first exception. *)
Fixpoint for_in {A S} (xs : list A) (s : S) (body : A → S → result S) : result S :=
  match xs with
  | [] => Ok s
  | x :: xs' => s' ← body x s; for_in xs' s' body
  end.

(** [range(start, stop, step)] for a positive step. *)
Fixpoint range_from (fuel start stop step : nat) : list nat :=
  match fuel with
  | O => []
  | S fuel' =>
      if decide (start < stop)%nat
      then start :: range_from fuel' (start + step) stop step
      else []
  end.
Definition range (start stop step : nat) : list nat :=
  range_from stop start stop step.

(** [s[i]] on a string, for a non-negative index. *)
Definition str_getitem (s : string) (i : nat) : result ascii :=
  lift IndexError (String.get i s).

(** [l[i]] on a list, for a non-negative index. *)
Definition list_getitem {A} (l : list A) (i : nat) : result A :=
  lift IndexError (l !! i).

(** Truth value of a string, of an integer, of a list, of bytes. *)
Definition truthy_str (s : string) : bool := negb (bool_decide (s = ""%string)).
Definition truthy_int (z : Z) : bool := negb (z =? 0).
Definition truthy_list {A} (l : list A) : bool :=
  match l with [] => false | _ => true end.

(** [x or d] on an optional integer and on an optional list. *)
Definition int_or (x : option Z) (d : Z) : Z :=
  match x with
  | Some z => if truthy_int z then z else d
  | None => d
  end.
Definition list_or {A} (x : option (list A)) (d : list A) : list A :=
  match x with
  | Some l => if truthy_list l then l else d
  | None => d
  end.

(** [s[n:]] on a string. *)
Fixpoint str_from (n : nat) (s : string) : string :=
  match n, s with
  | O, _ => s
  | S n', String _ s' => str_from n' s'
  | S _, EmptyString => EmptyString
  end.

(** [range(n - 1, -1, -1)]. *)
Fixpoint range_down (n : nat) : list nat :=
  match n with
  | O => []
  | S n' => n' :: range_down n'
  end.

(** *** [bytes.hex] and [bytes.fromhex] *)

Definition byte_of_N (n : N) : byte := default Byte.x00 (Byte.of_N n).

Definition hex_digit (n : N) : ascii :=
  default "0"%char (String.get (N.to_nat n) "0123456789abcdef").

Definition digit_value (c : ascii) : option N :=
  let n := N_of_ascii c in
  if ((48 <=? n) && (n <=? 57))%N then Some (n - 48)%N
  else if ((97 <=? n) && (n <=? 102))%N then Some (n - 87)%N
  else if ((65 <=? n) && (n <=? 70))%N then Some (n - 55)%N
  else None.

Definition is_space (c : ascii) : bool :=
  let n := N_of_ascii c in
  ((n =? 32) || ((9 <=? n) && (n <=? 13)))%N.

Fixpoint bytes_hex (b : bytes) : string :=
  match b with
  | [] => EmptyString
  | x :: b' =>
      String (hex_digit (Byte.to_N x / 16))
        (String (hex_digit (Byte.to_N x mod 16)) (bytes_hex b'))
  end.

(** White space is skipped in front of a pair of digits, never inside one;
    [None] stands for [ValueError]. *)
Fixpoint bytes_fromhex (s : string) : option bytes :=
  match s with
  | EmptyString => Some []
  | String c s' =>
      if is_space c then bytes_fromhex s'
      else
        match s' with
        | EmptyString => None
        | String d s'' =>
            hi ← digit_value c;
            lo ← digit_value d;
            b' ← bytes_fromhex s'';
            Some (byte_of_N (16 * hi + lo) :: b')
        end
  end.

(** ** Collaborators

    The codec ([thor_devkit.rlp]) and the cryptographic primitives
    ([thor_devkit.cry]) are imported by the module and live outside it. *)

(** Modelled from the spec: [NumericKind(max_bytes)] of the codec module, the
    fixed-width unsigned big-endian integer: [serialize] validates that the
    value fits in [max_bytes] bytes, [deserialize] rejects overlong input.
    The integer is written without leading zero bytes, so that zero is the
    empty byte string. *)
Fixpoint le_bytes (fuel : nat) (n : N) : bytes :=
  match fuel with
  | O => []
  | S fuel' =>
      if (n =? 0)%N then []
      else byte_of_N (n mod 256) :: le_bytes fuel' (n / 256)
  end.

Definition big_endian (n : N) : bytes :=
  rev (le_bytes (N.to_nat (N.size n)) n).

Definition big_endian_value (b : bytes) : N :=
  fold_left (λ acc x, acc * 256 + Byte.to_N x)%N b 0%N.

Definition NumericKind_serialize (max_bytes : nat) (obj : Z) : option bytes :=
  if obj <? 0 then None
  else
    let b := big_endian (Z.to_N obj) in
    if decide (length b ≤ max_bytes)%nat then Some b else None.

Definition NumericKind_deserialize (max_bytes : nat) (serial : bytes) : option Z :=
  if decide (length serial ≤ max_bytes)%nat
  then Some (Z.of_N (big_endian_value serial))
  else None.

(** [FeaturesKind = NumericKind(4)] *)
Definition FeaturesKind_serialize : Z → option bytes := NumericKind_serialize 4.
Definition FeaturesKind_deserialize : bytes → option Z := NumericKind_deserialize 4.

(** ** Value objects

    The fields annotated [Union[str, int]] ([value], [gas], [nonce]) are
    taken as integers, as in the data model of the specification; addresses,
    block references, ids and clause data are the ["0x..."] strings of the
    source; the items of [unused] are byte strings, whose length
    [_encode_reserved] takes. *)

Record Clause : Type := mkClause {
  to : option string;
  value : Z;
  data : string
}.

Record Reserved : Type := mkReserved {
  features : option Z;
  unused : option (list bytes)
}.

Record Body : Type := mkBody {
  chain_tag : Z;
  block_ref : string;
  expiration : Z;
  clauses : list Clause;
  gas_price_coef : Z;
  gas : Z;
  depends_on : option string;
  nonce : Z;
  reserved : option Reserved
}.

(** *** Dictionaries

    The dictionaries built by [to_dict] have a fixed set of keys, but for
    ["reserved"] and, inside it, ["features"] and ["unused"], which may be
    missing: a missing key is [None].  The value under ["reserved"] is a
    dictionary in the projection of a [Body] and a list of byte strings in
    the dictionary handed to the codec, hence the parameter [R]. *)

Record ClauseDict : Type := mkClauseDict {
  d_to : option string;
  d_value : Z;
  d_data : string
}.

Record ReservedDict : Type := mkReservedDict {
  d_features : option Z;
  d_unused : option (list bytes)
}.

Record BodyDict (R : Type) : Type := mkBodyDict {
  d_chainTag : Z;
  d_blockRef : string;
  d_expiration : Z;
  d_clauses : list ClauseDict;
  d_gasPriceCoef : Z;
  d_gas : Z;
  d_dependsOn : option string;
  d_nonce : Z;
  d_reserved : option R
}.
Arguments mkBodyDict {R}.
Arguments d_chainTag {R}.
Arguments d_blockRef {R}.
Arguments d_expiration {R}.
Arguments d_clauses {R}.
Arguments d_gasPriceCoef {R}.
Arguments d_gas {R}.
Arguments d_dependsOn {R}.
Arguments d_nonce {R}.
Arguments d_reserved {R}.

#[global] Instance ClauseDict_eq_dec : EqDecision ClauseDict.
Proof. solve_decision. Defined.
#[global] Instance ReservedDict_eq_dec : EqDecision ReservedDict.
Proof. solve_decision. Defined.
#[global] Instance BodyDict_eq_dec {R} `{EqDecision R} : EqDecision (BodyDict R).
Proof. solve_decision. Defined.

(** [d.update({"reserved": v})], also [d["reserved"] = v]. *)
Definition set_reserved {R R'} (d : BodyDict R) (v : R') : BodyDict R' :=
  mkBodyDict (d_chainTag d) (d_blockRef d) (d_expiration d) (d_clauses d)
    (d_gasPriceCoef d) (d_gas d) (d_dependsOn d) (d_nonce d) (Some v).

(** [del d["reserved"]] *)
Definition del_reserved {R R'} (d : BodyDict R) : result (BodyDict R') :=
  match d_reserved d with
  | Some _ =>
      Ok (mkBodyDict (d_chainTag d) (d_blockRef d) (d_expiration d) (d_clauses d)
            (d_gasPriceCoef d) (d_gas d) (d_dependsOn d) (d_nonce d) None)
  | None => Raise KeyError
  end.

(** Truth value of the dictionary under ["reserved"]: not empty. *)
Definition truthy_ReservedDict (r : ReservedDict) : bool :=
  match d_features r, d_unused r with
  | None, None => false
  | _, _ => true
  end.

Definition Clause_to_dict (self : Clause) : ClauseDict :=
  {| d_to := to self; d_value := value self; d_data := data self |}.

Definition Body_to_dict (self : Body) : BodyDict ReservedDict :=
  let d := {|
    d_chainTag := chain_tag self;
    d_blockRef := block_ref self;
    d_expiration := expiration self;
    d_clauses := Clause_to_dict <$> clauses self;
    d_gasPriceCoef := gas_price_coef self;
    d_gas := gas self;
    d_dependsOn := depends_on self;
    d_nonce := nonce self;
    d_reserved := None |} in
  match reserved self with
  | Some res =>
      let r := {| d_features := None; d_unused := None |} in
      let r :=
        if from_option truthy_int false (features res)
        then {| d_features := features res; d_unused := d_unused r |}
        else r in
      let r :=
        if from_option truthy_list false (unused res)
        then {| d_features := d_features r; d_unused := unused res |}
        else r in
      set_reserved d r
  | None => d
  end.

(** ** Gas estimator *)

Definition data_gas (data : string) : result Z :=
  let Z_GAS := 4 in
  let NZ_GAS := 68 in
  for_in (range 2 (String.length data) 2) 0 (λ x sum_up,
    c0 ← str_getitem data x;
    if bool_decide (c0 = "0"%char) then
      c1 ← str_getitem data (x + 1);
      if bool_decide (c1 = "0"%char)
      then Ok (sum_up + Z_GAS)
      else Ok (sum_up + NZ_GAS)
    else Ok (sum_up + NZ_GAS)).

Definition intrinsic_gas (clauses : list Clause) : result Z :=
  let TX_GAS := 5000 in
  let CLAUSE_GAS := 16000 in
  let CLAUSE_CONTRACT_CREATION := 48000 in
  if bool_decide (length clauses = 0%nat) then Ok (TX_GAS + CLAUSE_GAS)
  else
    for_in clauses (0 + TX_GAS) (λ clause sum_total,
      let clause_sum := 0 in
      let clause_sum :=
        if from_option truthy_str false (to clause)
        then clause_sum + CLAUSE_GAS
        else clause_sum + CLAUSE_CONTRACT_CREATION in
      g ← data_gas (data clause);
      let clause_sum := clause_sum + g in
      Ok (sum_total + clause_sum)).


(** ** The codec and the cryptographic primitives, as interfaces

    [ComplexCodec(UnsignedTxWrapper)] and [ComplexCodec(SignedTxWrapper)]
    take and return dictionaries; [None] stands for the codec's
    serialization or deserialization error.  The signed schema is the
    unsigned one followed by ["signature"].  A dictionary that the codec
    returns has the keys of the items it found on the wire: it may come
    without ["reserved"], and under the signed schema without
    ["signature"]. *)

Class Codec : Type := {
  UnsignedTx_encode : BodyDict (list bytes) → option bytes;
  UnsignedTx_decode : bytes → option (BodyDict (list bytes));
  SignedTx_encode : BodyDict (list bytes) → bytes → option bytes;
  SignedTx_decode : bytes → option (BodyDict (list bytes) * option bytes)
}.

(** [blake2b256] returns the digest and its length; [secp256k1.recover] and
    [address.public_key_to_address] may raise, which is [None]. *)
Class Crypto : Type := {
  blake2b256 : list bytes → bytes * nat;
  secp256k1_recover : bytes → bytes → option bytes;
  address_public_key_to_address : bytes → option bytes;
  address_is_address : string → bool
}.

(** ** Transaction *)

Record Transaction : Type := mkTransaction {
  body : Body;
  signature : option bytes
}.

(** The reserved feature of delegated (vip-191) is 1. *)
Definition DELEGATED_MASK : Z := 1.

(** [Transaction(body)] *)
Definition Transaction_init (body : Body) : Transaction :=
  {| body := body; signature := None |}.

Definition get_signature (self : Transaction) : option bytes :=
  signature self.

Definition set_signature (self : Transaction) (sig : bytes) : Transaction :=
  {| body := body self; signature := Some sig |}.

Definition get_intrinsic_gas (self : Transaction) : result Z :=
  intrinsic_gas (clauses (body self)).

(** The loop of [_encode_reserved] that looks for the right-most item of
    non-zero length and leaves at the first one found. *)
Fixpoint scan_right_most (length_list : list nat) (idx : list nat)
  : result (option nat) :=
  match idx with
  | [] => Ok None
  | i :: idx' =>
      n ← list_getitem length_list i;
      if decide (n ≠ 0%nat) then Ok (Some i)
      else scan_right_most length_list idx'
  end.

Definition _encode_reserved (self : Transaction) : result (list bytes) :=
  let r := d_reserved (Body_to_dict (body self)) in
  reserved ←
    (if negb (from_option truthy_ReservedDict false r)
     then Ok (mkReserved None None)
     else lift AttributeError (reserved (body self)));
  let f := int_or (features reserved) 0 in
  let l := list_or (unused reserved) [] in
  f_bytes ← lift SerializationError (FeaturesKind_serialize f);
  let m_list := [f_bytes] ++ l in
  let length_list := length <$> m_list in
  right_most_none_empty ← scan_right_most length_list (range_down (length length_list));
  match right_most_none_empty with
  | None => Ok []
  | Some right_most =>
      for_in (range 0 (right_most + 1) 1) [] (λ y return_list,
        x ← list_getitem m_list y;
        Ok (return_list ++ [x]))
  end.

Definition is_delegated (self : Transaction) : bool :=
  match d_reserved (Body_to_dict (body self)) with
  | None => false
  | Some r =>
      if negb (truthy_ReservedDict r) then false
      else
        match d_features r with
        | None => false
        | Some f =>
            if negb (truthy_int f) then false
            else bool_decide (Z.land f DELEGATED_MASK = DELEGATED_MASK)
        end
  end.

Definition _signature_valid (self : Transaction) : bool :=
  let expected_sig_len := if is_delegated self then (65 * 2)%nat else 65%nat in
  match get_signature self with
  | None => false
  | Some sig =>
      if negb (truthy_list sig) then false
      else bool_decide (length sig = expected_sig_len)
  end.

(** [self.get_signature()[i:j]]: subscripting [None] is a [TypeError]. *)
Definition signature_slice (self : Transaction) (slice : bytes → bytes)
  : result bytes :=
  sig ← lift TypeError (get_signature self); Ok (slice sig).

Section WithCollaborators.
Context {codec : Codec} {crypto : Crypto}.

Definition get_signing_hash (self : Transaction) (delegate_for : option string)
  : result bytes :=
  reserved_list ← _encode_reserved self;
  let _temp := set_reserved (Body_to_dict (body self)) reserved_list in
  buff ← lift SerializationError (UnsignedTx_encode _temp);
  let h := fst (blake2b256 [buff]) in
  match delegate_for with
  | Some delegate_for =>
      if truthy_str delegate_for then
        if negb (address_is_address delegate_for)
        then Raise (Exception "delegate_for should be an address type.")
        else
          raw ← lift ValueError (bytes_fromhex (str_from 2 delegate_for));
          let x := fst (blake2b256 [h; raw]) in
          Ok x
      else Ok h
  | None => Ok h
  end.

Definition get_origin (self : Transaction) : result (option string) :=
  if negb (_signature_valid self) then Ok None
  else
    try_except
      (my_sign_hash ← get_signing_hash self None;
       sig ← signature_slice self (take 65);
       pub_key ← lift ValueError (secp256k1_recover my_sign_hash sig);
       a ← lift ValueError (address_public_key_to_address pub_key);
       Ok (Some ("0x" +:+ bytes_hex a)))
      (Ok None).

Definition get_delegator (self : Transaction) : result (option string) :=
  if negb (is_delegated self) then Ok None
  else if negb (_signature_valid self) then Ok None
  else
    origin ← get_origin self;
    if negb (from_option truthy_str false origin) then Ok None
    else
      try_except
        (my_sign_hash ← get_signing_hash self origin;
         sig ← signature_slice self (drop 65);
         pub_key ← lift ValueError (secp256k1_recover my_sign_hash sig);
         a ← lift ValueError (address_public_key_to_address pub_key);
         Ok (Some ("0x" +:+ bytes_hex a)))
        (Ok None).

Definition get_id (self : Transaction) : result (option string) :=
  if negb (_signature_valid self) then Ok None
  else
    try_except
      (my_sign_hash ← get_signing_hash self None;
       sig ← signature_slice self (take 65);
       pub_key ← lift ValueError (secp256k1_recover my_sign_hash sig);
       origin ← lift ValueError (address_public_key_to_address pub_key);
       Ok (Some ("0x" +:+ bytes_hex (fst (blake2b256 [my_sign_hash; origin])))))
      (Ok None).

Definition encode (self : Transaction) : result bytes :=
  reserved_list ← _encode_reserved self;
  let temp := set_reserved (Body_to_dict (body self)) reserved_list in
  match signature self with
  | Some sig =>
      if truthy_list sig
      then lift SerializationError (SignedTx_encode temp sig)
      else lift SerializationError (UnsignedTx_encode temp)
  | None => lift SerializationError (UnsignedTx_encode temp)
  end.

Definition decode (raw : bytes) (unsigned : bool) : result Transaction :=
  '(body, sig) ←
    (if unsigned then
       body ← lift DeserializationError (UnsignedTx_decode raw);
       Ok (body, None)
     else
       decoded ← lift DeserializationError (SignedTx_decode raw);
       sig ← lift KeyError (snd decoded);
       Ok (fst decoded, Some sig));
  let r := default [] (d_reserved body) in
  body ←
    (if decide (0 < length r)%nat then
       last ← list_getitem r (length r - 1);
       if decide (length last = 0)%nat
       then Raise (Exception "invalid reserved fields: not trimmed.")
       else
         r0 ← list_getitem r 0;
         features ← lift DeserializationError (FeaturesKind_deserialize r0);
         let rd := {| d_features := Some features; d_unused := None |} in
         let rd :=
           if decide (1 < length r)%nat
           then {| d_features := d_features rd; d_unused := Some (drop 1 r) |}
           else rd in
         Ok (set_reserved body rd)
     else del_reserved body);
  let _clauses :=
    (λ each, mkClause (d_to each) (d_value each) (d_data each))
      <$> d_clauses body in
  _reserved ←
    match d_reserved body with
    | Some rd =>
        if truthy_ReservedDict rd then
          features ← lift KeyError (d_features rd);
          Ok (Some (mkReserved (Some features) (d_unused rd)))
        else Ok None
    | None => Ok None
    end;
  let tx := Transaction_init (mkBody
    (d_chainTag body) (d_blockRef body) (d_expiration body) _clauses
    (d_gasPriceCoef body) (d_gas body) (d_dependsOn body) (d_nonce body)
    _reserved) in
  match sig with
  | Some sig => if truthy_list sig then Ok (set_signature tx sig) else Ok tx
  | None => Ok tx
  end.

End WithCollaborators.

(** [self == other] *)
Definition __eq__ (self other : Transaction) : bool :=
  let flag_1 := bool_decide (signature self = signature other) in
  let flag_2 := bool_decide (Body_to_dict (body self) = Body_to_dict (body other)) in
  flag_1 && flag_2.

(** ** Reference descriptions

    What the specification says in words, written as separate definitions to
    compare the code with. *)

(** The hex-digit pairs that follow the two-character prefix. *)
Fixpoint digit_pairs (l : list ascii) : list (ascii * ascii) :=
  match l with
  | a :: b :: l' => (a, b) :: digit_pairs l'
  | _ => []
  end.

Definition hex_pairs (data : string) : list (ascii * ascii) :=
  digit_pairs (drop 2 (list_ascii_of_string data)).

Definition zero_pair : ascii * ascii := ("0"%char, "0"%char).

Definition zero_pairs (data : string) : Z :=
  Z.of_nat (length (filter (λ p, p = zero_pair) (hex_pairs data))).

Definition nonzero_pairs (data : string) : Z :=
  Z.of_nat (length (filter (λ p, p ≠ zero_pair) (hex_pairs data))).

(** 4 for a pair of zeros, 68 for any other pair. *)
Definition pairs_gas (l : list ascii) : Z :=
  4 * Z.of_nat (length (filter (λ p, p = zero_pair) (digit_pairs l)))
  + 68 * Z.of_nat (length (filter (λ p, p ≠ zero_pair) (digit_pairs l))).

(** A clause of the data model: the data is a whole number of hex-digit
    pairs. *)
Definition clause_in_model (c : Clause) : Prop :=
  Nat.Even (String.length (data c)).

(** The charge for one clause: a regular call when [to] is present and not
    the empty string, a contract creation otherwise, plus the charge for the
    data. *)
Definition clause_cost (c : Clause) : Z :=
  (match to c with
   | Some a => if bool_decide (a = ""%string) then 48000 else 16000
   | None => 48000
   end)
  + (4 * zero_pairs (data c) + 68 * nonzero_pairs (data c)).

Definition Zsum (l : list Z) : Z := foldr Z.add 0 l.

(** The items of the candidate list of the reserved field: the features,
    0 by default, and the unused items, none by default. *)
Definition features_or_default (b : Body) : Z :=
  default 0 (reserved b ≫= features).
Definition unused_or_default (b : Body) : list bytes :=
  default [] (reserved b ≫= unused).

(** The same transaction with no [Reserved] at all. *)
Definition without_reserved (tx : Transaction) : Transaction :=
  let b := body tx in
  mkTransaction
    (mkBody (chain_tag b) (block_ref b) (expiration b) (clauses b)
       (gas_price_coef b) (gas b) (depends_on b) (nonce b) None)
    (signature tx).

(** The dictionary the codec returns for the wire bytes, whether it has
    the keys that [decode] reads or not. *)
Definition codec_dict `{Codec} (raw : bytes) (unsigned : bool)
  : option (BodyDict (list bytes)) :=
  if unsigned then UnsignedTx_decode raw else fst <$> SignedTx_decode raw.

(** The dictionary that [decode] goes on with: what the codec returns for
    the wire bytes, once the signature is read and taken out of it under the
    signed schema.  There is none when the codec fails, and none when the
    signature to read is missing. *)
Definition decoded_dict `{Codec} (raw : bytes) (unsigned : bool)
  : option (BodyDict (list bytes)) :=
  if unsigned then UnsignedTx_decode raw
  else decoded ← SignedTx_decode raw; _ ← snd decoded; Some (fst decoded).

(** The two exceptions the module raises itself, under the names the
    specification gives them. *)
Definition InvalidDelegateAddress : exn :=
  Exception "delegate_for should be an address type.".
Definition UntrimmedReservedField : exn :=
  Exception "invalid reserved fields: not trimmed.".

(** The hash of the unsigned-schema encoding of the body's dictionary with
    the canonical reserved list in it. *)
Definition plain_signing_hash `{Codec} `{Crypto} (tx : Transaction)
  : result bytes :=
  reserved_list ← _encode_reserved tx;
  buff ← lift SerializationError
            (UnsignedTx_encode (set_reserved (Body_to_dict (body tx)) reserved_list));
  Ok (fst (blake2b256 [buff])).

(** Recovery of a public key from a digest and a signature, then derivation
    of its address; [None] when either fails. *)
Definition recover_address `{Crypto} (digest sig : bytes) : option bytes :=
  pub_key ← secp256k1_recover digest sig;
  address_public_key_to_address pub_key.

(** An address as the accessors print it. *)
Definition address_text (a : bytes) : string := "0x" +:+ bytes_hex a.

(** The address of the origin: recovered from the first 65 bytes of a valid
    signature against the plain signing hash. *)
Definition origin_address `{Codec} `{Crypto} (tx : Transaction) : option bytes :=
  if _signature_valid tx then
    match plain_signing_hash tx, signature tx with
    | Ok h, Some sig => recover_address h (take 65 sig)
    | _, _ => None
    end
  else None.

(** The signature length that [_signature_valid] asks for. *)
Definition required_length (tx : Transaction) : nat :=
  if is_delegated tx then 130%nat else 65%nat.

(** The same primitives with another address validator. *)
Definition with_is_address (c : Crypto) (f : string → bool) : Crypto :=
  {| blake2b256 := @blake2b256 c;
     secp256k1_recover := @secp256k1_recover c;
     address_public_key_to_address := @address_public_key_to_address c;
     address_is_address := f |}.

(** The characters [bytes.hex] may produce. *)
Definition lower_hex_char (c : ascii) : bool :=
  let n := N_of_ascii c in
  (((48 <=? n) && (n <=? 57)) || ((97 <=? n) && (n <=? 102)))%N.

(** The dictionary that [encode] hands to the codec. *)
Definition wire_dict (tx : Transaction) : result (BodyDict (list bytes)) :=
  reserved_list ← _encode_reserved tx;
  Ok (set_reserved (Body_to_dict (body tx)) reserved_list).

(** The codec takes the transaction's field values as they are: it encodes
    the dictionary of the transaction, under the schema that [encode]
    chooses, and decodes the bytes back to the same dictionary. *)
Definition codec_round_trips `{Codec} (tx : Transaction) : Prop :=
  ∃ d raw,
    wire_dict tx = Ok d
    ∧ match signature tx with
      | None => UnsignedTx_encode d = Some raw ∧ UnsignedTx_decode raw = Some d
      | Some sig =>
          SignedTx_encode d sig = Some raw
          ∧ SignedTx_decode raw = Some (d, Some sig)
      end.

(** The reserved field is absent, or the last item of its candidate list has
    a non-zero length: canonicalization drops nothing. *)
Definition reserved_trimmed (b : Body) : Prop :=
  reserved b = None
  ∨ ∃ e x,
      FeaturesKind_serialize (features_or_default b) = Some e
      ∧ last ([e] ++ unused_or_default b) = Some x
      ∧ length x ≠ 0%nat.

(** The part of [decode] that follows the codec, for the dictionary and the
    signature that the codec returned. *)
Definition decode_dict (body : BodyDict (list bytes)) (sig : option bytes)
  : result Transaction :=
  let r := default [] (d_reserved body) in
  body ←
    (if decide (0 < length r)%nat then
       last ← list_getitem r (length r - 1);
       if decide (length last = 0)%nat
       then Raise (Exception "invalid reserved fields: not trimmed.")
       else
         r0 ← list_getitem r 0;
         features ← lift DeserializationError (FeaturesKind_deserialize r0);
         let rd := {| d_features := Some features; d_unused := None |} in
         let rd :=
           if decide (1 < length r)%nat
           then {| d_features := d_features rd; d_unused := Some (drop 1 r) |}
           else rd in
         Ok (set_reserved body rd)
     else del_reserved body);
  let _clauses :=
    (λ each, mkClause (d_to each) (d_value each) (d_data each))
      <$> d_clauses body in
  _reserved ←
    match d_reserved body with
    | Some rd =>
        if truthy_ReservedDict rd then
          features ← lift KeyError (d_features rd);
          Ok (Some (mkReserved (Some features) (d_unused rd)))
        else Ok None
    | None => Ok None
    end;
  let tx := Transaction_init (mkBody
    (d_chainTag body) (d_blockRef body) (d_expiration body) _clauses
    (d_gasPriceCoef body) (d_gas body) (d_dependsOn body) (d_nonce body)
    _reserved) in
  match sig with
  | Some sig => if truthy_list sig then Ok (set_signature tx sig) else Ok tx
  | None => Ok tx
  end.

(** The last character of a string. *)
Definition last_char (s : string) : option ascii :=
  last (list_ascii_of_string s).

(** The body of the loop of [data_gas] read off the characters left to scan:
    the second character of a pair is looked at only after a ["0"]. *)
Fixpoint scan_gas (l : list ascii) (sum_up : Z) : result Z :=
  match l with
  | [] => Ok sum_up
  | [c0] =>
      if bool_decide (c0 = "0"%char) then Raise IndexError
      else Ok (sum_up + 68)
  | c0 :: c1 :: l' =>
      scan_gas l'
        (if bool_decide (c0 = "0"%char) && bool_decide (c1 = "0"%char)
         then sum_up + 4 else sum_up + 68)
  end.

(** ** A reference instance of the collaborators

    Modelled from the spec: the structured codec of the module [rlp], with
    the field kinds and the two schemas that the specification lists for it
    (the unsigned transaction is the list of chainTag, blockRef, expiration,
    clauses, gasPriceCoef, gas, dependsOn, nonce and reserved, the signed one
    has the signature after them, a clause is the list of to, value and
    data).  The byte layout, which the specification leaves to the codec, is
    the recursive length prefix.  The hash, the recovery and the address
    primitives of the module [cry] are small stand-ins.

    The statements below hold for any codec and any primitives; this
    instance serves to run the module's functions on concrete
    transactions. *)

Module Reference.

#[local] Unset Elimination Schemes.
Inductive item : Type :=
  | Str (b : bytes)
  | Lst (l : list item).
#[local] Set Elimination Schemes.

Definition length_prefix (offset : N) (len : nat) : bytes :=
  if decide (len < 56)%nat then [byte_of_N (offset + N.of_nat len)]
  else
    let bl := big_endian (N.of_nat len) in
    byte_of_N (offset + 55 + N.of_nat (length bl)) :: bl.

Fixpoint item_encode (i : item) : bytes :=
  match i with
  | Str b =>
      match b with
      | [x] =>
          if (Byte.to_N x <? 128)%N then [x]
          else length_prefix 128 1 ++ b
      | _ => length_prefix 128 (length b) ++ b
      end
  | Lst l =>
      let payload := flat_map item_encode l in
      length_prefix 192 (length payload) ++ payload
  end.

Definition split_at (n : nat) (b : bytes) : option (bytes * bytes) :=
  if decide (n ≤ length b)%nat then Some (take n b, drop n b) else None.

(** A length written on [ll] bytes in front of the payload. *)
Definition long_payload (ll : nat) (b : bytes) : option (bytes * bytes) :=
  lb ← split_at ll b;
  split_at (N.to_nat (big_endian_value (fst lb))) (snd lb).

Fixpoint item_decode (fuel : nat) (b : bytes) : option (item * bytes) :=
  match fuel with
  | O => None
  | S fuel' =>
      match b with
      | [] => None
      | x :: rest =>
          let n := Byte.to_N x in
          if (n <? 128)%N then Some (Str [x], rest)
          else if (n <? 184)%N then
            p ← split_at (N.to_nat (n - 128)) rest;
            Some (Str (fst p), snd p)
          else if (n <? 192)%N then
            p ← long_payload (N.to_nat (n - 183)) rest;
            Some (Str (fst p), snd p)
          else if (n <? 248)%N then
            p ← split_at (N.to_nat (n - 192)) rest;
            l ← items_decode fuel' (fst p);
            Some (Lst l, snd p)
          else
            p ← long_payload (N.to_nat (n - 247)) rest;
            l ← items_decode fuel' (fst p);
            Some (Lst l, snd p)
      end
  end
with items_decode (fuel : nat) (b : bytes) : option (list item) :=
  match fuel with
  | O => None
  | S fuel' =>
      match b with
      | [] => Some []
      | _ =>
          p ← item_decode fuel' b;
          l ← items_decode fuel' (snd p);
          Some (fst p :: l)
      end
  end.

Definition decode_whole (b : bytes) : option item :=
  p ← item_decode (2 * length b + 2) b;
  match snd p with
  | [] => Some (fst p)
  | _ => None
  end.

(** The kinds of the schema. *)

Definition BlobKind_serialize (s : string) : option bytes :=
  match s with
  | String "0" (String "x" h) => bytes_fromhex h
  | _ => None
  end.
Definition BlobKind_deserialize (b : bytes) : string := "0x" +:+ bytes_hex b.

Definition FixedBlobKind_serialize (n : nat) (s : string) : option bytes :=
  b ← BlobKind_serialize s;
  if decide (length b = n) then Some b else None.
Definition FixedBlobKind_deserialize (n : nat) (b : bytes) : option string :=
  if decide (length b = n) then Some (BlobKind_deserialize b) else None.

Definition NoneableFixedBlobKind_serialize (n : nat) (s : option string)
  : option bytes :=
  match s with
  | None => Some []
  | Some s => FixedBlobKind_serialize n s
  end.
Definition NoneableFixedBlobKind_deserialize (n : nat) (b : bytes)
  : option (option string) :=
  match b with
  | [] => Some None
  | _ => Some <$> FixedBlobKind_deserialize n b
  end.

Fixpoint strip_zeros (b : bytes) : bytes :=
  match b with
  | x :: b' => if decide (x = Byte.x00) then strip_zeros b' else b
  | [] => []
  end.

Definition CompactFixedBlobKind_serialize (n : nat) (s : string) : option bytes :=
  strip_zeros <$> FixedBlobKind_serialize n s.
Definition CompactFixedBlobKind_deserialize (n : nat) (b : bytes)
  : option string :=
  if decide (length b ≤ n)%nat then
    if decide (strip_zeros b = b)
    then Some (BlobKind_deserialize (replicate (n - length b) Byte.x00 ++ b))
    else None
  else None.

(** The schemas. *)

Definition clause_pack (c : ClauseDict) : option item :=
  t ← NoneableFixedBlobKind_serialize 20 (d_to c);
  v ← NumericKind_serialize 32 (d_value c);
  dt ← BlobKind_serialize (d_data c);
  Some (Lst [Str t; Str v; Str dt]).

Definition clause_unpack (i : item) : option ClauseDict :=
  match i with
  | Lst [Str t; Str v; Str dt] =>
      t ← NoneableFixedBlobKind_deserialize 20 t;
      v ← NumericKind_deserialize 32 v;
      Some (mkClauseDict t v (BlobKind_deserialize dt))
  | _ => None
  end.

Definition bytes_unpack (i : item) : option bytes :=
  match i with
  | Str b => Some b
  | Lst _ => None
  end.

Definition body_pack (d : BodyDict (list bytes)) : option (list item) :=
  ct ← NumericKind_serialize 1 (d_chainTag d);
  br ← CompactFixedBlobKind_serialize 8 (d_blockRef d);
  ex ← NumericKind_serialize 4 (d_expiration d);
  cl ← mapM clause_pack (d_clauses d);
  gp ← NumericKind_serialize 1 (d_gasPriceCoef d);
  g ← NumericKind_serialize 8 (d_gas d);
  dep ← NoneableFixedBlobKind_serialize 32 (d_dependsOn d);
  n ← NumericKind_serialize 8 (d_nonce d);
  r ← d_reserved d;
  Some [Str ct; Str br; Str ex; Lst cl; Str gp; Str g; Str dep; Str n;
        Lst (Str <$> r)].

Definition body_unpack (l : list item) : option (BodyDict (list bytes)) :=
  match l with
  | [Str ct; Str br; Str ex; Lst cl; Str gp; Str g; Str dep; Str n; Lst r] =>
      ct ← NumericKind_deserialize 1 ct;
      br ← CompactFixedBlobKind_deserialize 8 br;
      ex ← NumericKind_deserialize 4 ex;
      cl ← mapM clause_unpack cl;
      gp ← NumericKind_deserialize 1 gp;
      g ← NumericKind_deserialize 8 g;
      dep ← NoneableFixedBlobKind_deserialize 32 dep;
      n ← NumericKind_deserialize 8 n;
      r ← mapM bytes_unpack r;
      Some (mkBodyDict ct br ex cl gp g dep n (Some r))
  | _ => None
  end.

(** Under the signed schema the signature is the item after the nine of the
    body; a list of the nine items only gives a dictionary without it. *)
Definition signature_unpack (l : list item) : option (option bytes) :=
  match l with
  | [] => Some None
  | [Str sig] => Some (Some sig)
  | _ => None
  end.

Definition codec : Codec := {|
  UnsignedTx_encode d := l ← body_pack d; Some (item_encode (Lst l));
  UnsignedTx_decode raw :=
    i ← decode_whole raw;
    match i with
    | Lst l => body_unpack l
    | Str _ => None
    end;
  SignedTx_encode d sig :=
    l ← body_pack d; Some (item_encode (Lst (l ++ [Str sig])));
  SignedTx_decode raw :=
    i ← decode_whole raw;
    match i with
    | Lst l =>
        d ← body_unpack (take 9 l);
        sig ← signature_unpack (drop 9 l);
        Some (d, sig)
    | Str _ => None
    end
|}.

(** A stand-in for the hash: a 32-byte checksum of the buffers. *)
Definition checksum (bufs : list bytes) : bytes * nat :=
  let s := fold_left (λ acc x, (acc * 31 + Byte.to_N x + 1) mod 2 ^ 256)%N
             (concat bufs) 7%N in
  (take 32 (reverse (le_bytes 32 s) ++ replicate 32 Byte.x00), 32%nat).

(** A stand-in for the recovery: the signature carries the key. *)
Definition recover (digest sig : bytes) : option bytes :=
  if decide (length digest = 32 ∧ length sig = 65)%nat
  then Some (Byte.x04 :: take 64 sig)
  else None.

Definition public_key_to_address (pub_key : bytes) : option bytes :=
  if decide (length pub_key = 65)%nat then Some (drop 45 pub_key) else None.

(** ["0x"] and forty hexadecimal digits. *)
Definition is_address (s : string) : bool :=
  match s with
  | String "0" (String "x" h) =>
      bool_decide (String.length h = 40%nat)
      && forallb (λ c, bool_decide (is_Some (digit_value c)))
           (list_ascii_of_string h)
  | _ => false
  end.

Definition crypto : Crypto := {|
  blake2b256 := checksum;
  secp256k1_recover := recover;
  address_public_key_to_address := public_key_to_address;
  address_is_address := is_address
|}.

End Reference.

(** ** Example transactions *)

Definition example_address : string :=
  "0x7567d83b7b8d80addcb281a71d54fc7b3364ffed".

(** One regular call with two bytes of data. *)
Definition example_clauses : list Clause :=
  [mkClause (Some example_address) 10000 "0x00ff"].

(** Three clauses, the last one a contract creation. *)
Definition three_clauses : list Clause :=
  [mkClause (Some example_address) 10000 "0x000000606060";
   mkClause (Some example_address) 20000 "0x000000606060";
   mkClause None 0 "0x00ff"].

Definition body_with (clauses : list Clause) (reserved : option Reserved) : Body :=
  mkBody 1 "0x00000000aabbccdd" 32 clauses 128 21000 None 12345678 reserved.

(** An unsigned transaction without [Reserved]. *)
Definition plain_tx : Transaction := Transaction_init (body_with three_clauses None).

(** A delegated transaction with two unused items and a signature of 130
    bytes: that of the origin, then that of the delegator. *)
Definition delegated_body : Body :=
  body_with three_clauses
    (Some (mkReserved (Some 1)
             (Some [[Byte.x0f; Byte.x0f]; [Byte.x01; Byte.x01]]))).
Definition origin_signature : bytes := replicate 65 Byte.x01.
Definition delegator_signature : bytes := replicate 65 Byte.x02.
Definition delegated_tx : Transaction :=
  set_signature (Transaction_init delegated_body)
    (origin_signature ++ delegator_signature).

(** A [Reserved] with features 0 and no unused item, and one with two empty
    unused items after features 5. *)
Definition empty_reserved_tx : Transaction :=
  Transaction_init (body_with [] (Some (mkReserved (Some 0) (Some [])))).
Definition padded_reserved_tx : Transaction :=
  Transaction_init (body_with [] (Some (mkReserved (Some 5) (Some [[]; []])))).

(** Wire bytes whose reserved list ends in an item of zero length. *)
Definition untrimmed_raw : bytes :=
  default []
    (@UnsignedTx_encode Reference.codec
       (set_reserved (Body_to_dict (body_with [] None)) [[Byte.x01]; []])).

(** ** Further descriptions *)

(** The test [if clause.to:] of [intrinsic_gas]: a destination that is not
    the empty string. *)
Definition has_destination (c : Clause) : bool :=
  match to c with
  | Some s => negb (bool_decide (s = ""%string))
  | None => false
  end.

(** The data strings on which [data_gas] reads past the end: an odd number
    of characters, three at least, the last one ["0"]. *)
Definition data_raises (d : string) : Prop :=
  Nat.Odd (String.length d) ∧ (3 ≤ String.length d)%nat
  ∧ last_char d = Some "0"%char.

(** The number of turns of the loop of [data_gas]. *)
Definition data_gas_turns (d : string) : Z :=
  Z.of_nat ((String.length d - 1) / 2).

(** One turn of the loop of [intrinsic_gas]. *)
Definition clause_step (clause : Clause) (sum_total : Z) : result Z :=
  g ← data_gas (data clause);
  Ok (sum_total + ((if has_destination clause then 16000 else 48000) + g)).

(** Two lists of clauses that agree, clause by clause, on whether there is
    a destination and on the data. *)
Definition same_destinations_and_data (cs cs' : list Clause) : Prop :=
  Forall2 (λ c c', has_destination c = has_destination c' ∧ data c = data c')
    cs cs'.

(** The same transaction with another [Reserved], or none. *)
Definition with_reserved (tx : Transaction) (r : option Reserved) : Transaction :=
  let b := body tx in
  mkTransaction
    (mkBody (chain_tag b) (block_ref b) (expiration b) (clauses b)
       (gas_price_coef b) (gas b) (depends_on b) (nonce b) r)
    (signature tx).

(** A [Reserved] with its falsy fields left out: features 0 and an empty
    list of unused items become [None]. *)
Definition without_falsy_fields (r : Reserved) : Reserved :=
  mkReserved
    (match features r with Some 0 => None | fo => fo end)
    (match unused r with Some [] => None | uo => uo end).

(** The signature as [encode] and [decode] see it: an empty one is none. *)
Definition truthy_signature (tx : Transaction) : option bytes :=
  match signature tx with
  | Some sig => if truthy_list sig then Some sig else None
  | None => None
  end.

(** The codec decodes what it encodes for the transaction, under the
    schema that [encode] chooses: the signed one for a signature that is
    not empty, the unsigned one otherwise. *)
Definition codec_inverts_encode `{Codec} (tx : Transaction) : Prop :=
  ∃ d raw,
    wire_dict tx = Ok d
    ∧ match truthy_signature tx with
      | None => UnsignedTx_encode d = Some raw ∧ UnsignedTx_decode raw = Some d
      | Some sig =>
          SignedTx_encode d sig = Some raw
          ∧ SignedTx_decode raw = Some (d, Some sig)
      end.

(** The [Reserved] that [decode] builds from a reserved list. *)
Definition reserved_of_list (r : list bytes) : option Reserved :=
  match r with
  | [] => None
  | e :: u =>
      Some (mkReserved (FeaturesKind_deserialize e)
              (match u with [] => None | _ => Some u end))
  end.

(** The wire bytes of the delegated example transaction. *)
Definition delegated_raw : bytes :=
  match @encode Reference.codec delegated_tx with
  | Ok raw => raw
  | Raise _ => []
  end.

Definition wide_features_tx : Transaction :=
  Transaction_init (body_with [] (Some (mkReserved (Some 4294967296) None))).

(** The example transaction with an empty signature. *)
Definition empty_signature_tx : Transaction :=
  set_signature plain_tx [].

(** What comes back from the wire: the transaction with the [Reserved] read
    from its canonical list and without an empty signature. *)
Definition decoded_form (tx : Transaction) (l : list bytes) : Transaction :=
  mkTransaction (body (with_reserved tx (reserved_of_list l)))
    (truthy_signature tx).

(** * Properties *)

(** ** The gas estimator *)

Section DataGas.

Lemma string_get_lookup (s : string) (i : nat) :
  String.get i s = list_ascii_of_string s !! i.
Proof.
  revert i. induction s as [|c s IH]; intros [|i]; simpl; auto.
Qed.

Lemma string_length_list (s : string) :
  String.length s = length (list_ascii_of_string s).
Proof. induction s; simpl; auto. Qed.

Lemma for_in_cons {A S} (x : A) (xs : list A) (s : S) body :
  for_in (x :: xs) s body = body x s ≫= λ s', for_in xs s' body.
Proof. reflexivity. Qed.

Lemma data_gas_loop (data : string) (fuel : nat) :
  ∀ (l : list ascii) (x : nat) (sum_up : Z),
    drop x (list_ascii_of_string data) = l →
    (x + length l = String.length data)%nat →
    (length l ≤ 2 * fuel)%nat →
    for_in (range_from fuel x (String.length data) 2) sum_up (λ x sum_up,
      c0 ← str_getitem data x;
      if bool_decide (c0 = "0"%char) then
        c1 ← str_getitem data (x + 1);
        if bool_decide (c1 = "0"%char)
        then Ok (sum_up + 4)
        else Ok (sum_up + 68)
      else Ok (sum_up + 68))
    = scan_gas l sum_up.
Proof.
  induction fuel as [|fuel IH]; intros l x sum_up Hdrop Hlen Hfuel.
  { destruct l; simpl in *; [done | lia]. }
  destruct l as [|c0 [|c1 l']]; simpl in Hlen, Hfuel.
  - simpl. case_decide; [lia | done].
  - cbn [range_from]. case_decide; [|lia].
    assert (Hc0 : list_ascii_of_string data !! x = Some c0).
    { rewrite <- (Nat.add_0_r x), <- lookup_drop, Hdrop. done. }
    assert (Hc1 : list_ascii_of_string data !! (x + 1)%nat = None).
    { apply lookup_ge_None. rewrite <- string_length_list. lia. }
    rewrite for_in_cons. cbv beta. unfold str_getitem.
    rewrite !string_get_lookup, Hc0, Hc1. simpl.
    case_bool_decide; simpl; [done|].
    destruct fuel as [|fuel]; simpl; [done|].
    case_decide; [lia | done].
  - cbn [range_from]. case_decide; [|lia].
    assert (Hc0 : list_ascii_of_string data !! x = Some c0).
    { rewrite <- (Nat.add_0_r x), <- lookup_drop, Hdrop. done. }
    assert (Hc1 : list_ascii_of_string data !! (x + 1)%nat = Some c1).
    { rewrite <- lookup_drop, Hdrop. done. }
    rewrite for_in_cons. cbv beta. unfold str_getitem.
    rewrite !string_get_lookup, Hc0, Hc1.
    specialize (IH l' (x + 2)%nat).
    assert (Hd : drop (x + 2) (list_ascii_of_string data) = l').
    { rewrite <- drop_drop, Hdrop. done. }
    cbn [lift mbind result_bind scan_gas].
    repeat case_bool_decide; cbn [mbind result_bind andb];
      apply IH; auto; lia.
Qed.

Lemma data_gas_scan (data : string) :
  data_gas data = scan_gas (drop 2 (list_ascii_of_string data)) 0.
Proof.
  unfold data_gas, range. cbv zeta.
  destruct (decide (2 ≤ String.length data)%nat) as [Hge|Hlt].
  - apply data_gas_loop; [done | |].
    + rewrite length_drop, <- string_length_list. lia.
    + rewrite length_drop, <- string_length_list. lia.
  - rewrite drop_ge by (rewrite <- string_length_list; lia).
    destruct (String.length data) as [|[|n]]; simpl; try done. lia.
Qed.

Lemma list_pair_ind {A} (P : list A → Prop) :
  P [] → (∀ a, P [a]) → (∀ a b l, P l → P (a :: b :: l)) → ∀ l, P l.
Proof.
  intros H0 H1 H2 l.
  assert (H : P l ∧ ∀ a, P (a :: l)); [|by destruct H].
  induction l as [|b l [IHl IHl']]; split; auto.
Qed.

Lemma pairs_gas_cons (a b : ascii) (l : list ascii) :
  pairs_gas (a :: b :: l) =
  (if bool_decide (a = "0"%char) && bool_decide (b = "0"%char) then 4 else 68)
  + pairs_gas l.
Proof.
  unfold pairs_gas. cbn [digit_pairs]. rewrite !filter_cons.
  unfold zero_pair.
  repeat case_bool_decide; repeat case_decide; simplify_eq/=; try lia;
    try congruence.
Qed.

Lemma scan_gas_even (l : list ascii) :
  Nat.Even (length l) → ∀ sum_up, scan_gas l sum_up = Ok (sum_up + pairs_gas l).
Proof.
  induction l as [|a|a b l IH] using list_pair_ind; intros Hev sum_up.
  - simpl. f_equal. unfold pairs_gas. simpl. lia.
  - destruct Hev as [k Hk]. simpl in Hk. lia.
  - cbn [scan_gas]. rewrite IH, pairs_gas_cons.
    + f_equal. destruct (_ && _); lia.
    + destruct Hev as [k Hk]. exists (k - 1)%nat. simpl in Hk. lia.
Qed.

Lemma scan_gas_odd (l : list ascii) :
  Nat.Odd (length l) → ∀ sum_up,
    scan_gas l sum_up =
    if bool_decide (last l = Some "0"%char) then Raise IndexError
    else Ok (sum_up + (pairs_gas l + 68)).
Proof.
  induction l as [|a|a b l IH] using list_pair_ind; intros Hodd sum_up.
  - destruct Hodd as [k Hk]. simpl in Hk. lia.
  - simpl. repeat case_bool_decide; simplify_eq/=; try done;
      f_equal; unfold pairs_gas; simpl; lia.
  - assert (Hl : Nat.Odd (length l)).
    { destruct Hodd as [k Hk]. exists (k - 1)%nat. simpl in Hk. lia. }
    cbn [scan_gas]. rewrite IH by done. rewrite pairs_gas_cons.
    assert (Hlast : last (a :: b :: l) = last l).
    { destruct l as [|c l]; [destruct Hl as [k Hk]; simpl in Hk; lia|done]. }
    rewrite Hlast. case_bool_decide; [done|].
    f_equal. destruct (_ && _); lia.
Qed.

Lemma data_gas_even (data : string) :
  Nat.Even (String.length data) →
  data_gas data = Ok (4 * zero_pairs data + 68 * nonzero_pairs data).
Proof.
  intros [k Hk]. rewrite data_gas_scan, scan_gas_even.
  - reflexivity.
  - rewrite length_drop, <- string_length_list.
    exists (k - 1)%nat. lia.
Qed.

Lemma data_gas_odd (data : string) :
  Nat.Odd (String.length data) → (3 ≤ String.length data)%nat →
  data_gas data =
  if bool_decide (last_char data = Some "0"%char) then Raise IndexError
  else Ok (4 * zero_pairs data + 68 * (nonzero_pairs data + 1)).
Proof.
  intros [k Hk] Hlen. rewrite data_gas_scan, scan_gas_odd.
  - assert (Hlast : last (drop 2 (list_ascii_of_string data)) = last_char data).
    { unfold last_char. rewrite string_length_list in Hlen.
      destruct (list_ascii_of_string data) as [|a [|b [|c l]]];
        simpl in *; try lia; done. }
    rewrite Hlast. case_bool_decide; [done|].
    f_equal. unfold zero_pairs, nonzero_pairs, hex_pairs, pairs_gas. lia.
  - rewrite length_drop, <- string_length_list.
    exists (k - 1)%nat. lia.
Qed.

End DataGas.

(** C10, as amended. On an input of odd length at least 3 the loop reads one
    character past the end exactly when the last character is ["0"]: the
    second character of a pair is looked at only after a ["0"], so with any
    other last character [data_gas] returns, and counts that character as a
    non-zero pair. On an input of even length [data_gas] never reads out of
    range and returns [4 * z + 68 * n], for [z] pairs of zeros and [n] other
    pairs after the two-character prefix. *)
Theorem data_gas_totality (data : string) :
  (Nat.Odd (String.length data) → (3 ≤ String.length data)%nat →
     (last_char data = Some "0"%char → data_gas data = Raise IndexError) ∧
     (last_char data ≠ Some "0"%char →
        data_gas data = Ok (4 * zero_pairs data + 68 * (nonzero_pairs data + 1))))
  ∧ (Nat.Even (String.length data) →
       data_gas data = Ok (4 * zero_pairs data + 68 * nonzero_pairs data)).
Proof.
  split.
  - intros Hodd Hlen. rewrite data_gas_odd by done.
    split; intros H; case_bool_decide; done.
  - apply data_gas_even.
Qed.

Lemma data_gas_totality_witness :
  data_gas "0x0" = Raise IndexError
  ∧ data_gas "0x1" = Ok (4 * zero_pairs "0x1" + 68 * (nonzero_pairs "0x1" + 1))
  ∧ data_gas "0x00ff" = Ok (4 * zero_pairs "0x00ff" + 68 * nonzero_pairs "0x00ff").
Proof.
  split; [|split].
  - apply (data_gas_totality "0x0"); [by exists 1%nat | simpl; lia | reflexivity].
  - apply (data_gas_totality "0x1"); [by exists 1%nat | simpl; lia | by vm_compute].
  - apply (data_gas_totality "0x00ff"). by exists 3%nat.
Defined.

(** C10, as stated, fails: ["0x1"] has odd length 3 and [data_gas] returns
    on it without reading out of range. *)
Lemma odd_length_data_gas_returns :
  String.length "0x1" = 3%nat ∧ data_gas "0x1" = Ok 68.
Proof. split; reflexivity. Qed.

Section IntrinsicGas.

Lemma intrinsic_gas_loop (clauses : list Clause) :
  Forall clause_in_model clauses →
  ∀ sum_total : Z,
    for_in clauses sum_total (λ clause sum_total,
      let clause_sum := 0 in
      let clause_sum :=
        if from_option truthy_str false (to clause)
        then clause_sum + 16000
        else clause_sum + 48000 in
      g ← data_gas (data clause);
      let clause_sum := clause_sum + g in
      Ok (sum_total + clause_sum))
    = Ok (sum_total + Zsum (map clause_cost clauses)).
Proof.
  induction 1 as [|c cs Hdata Hcs IH]; intros sum_total.
  - simpl. f_equal. lia.
  - rewrite for_in_cons. cbv beta zeta.
    rewrite (data_gas_even _ Hdata). cbn [mbind result_bind].
    rewrite IH. f_equal. cbn [map Zsum foldr]. fold (Zsum (map clause_cost cs)).
    unfold clause_cost at 2.
    destruct (to c) as [a|]; cbn [from_option]; [|lia].
    unfold truthy_str. case_bool_decide; simpl; lia.
Qed.

End IntrinsicGas.

(** C2, amended. [intrinsic_gas] returns 21000 for the empty clause list;
    otherwise 5000 plus, per clause, 16000 when [to] is present and not
    the empty string, and 48000 when it is absent or the empty string, plus
    [data_gas] of the clause's data, which is 4 for each pair of zeros and
    68 for every other pair of the data string; one clause with a
    destination that is not empty and data ["0x00ff"] costs 21072, and with
    the empty string as destination 53072. *)
Theorem intrinsic_gas_spec (clauses : list Clause) :
  Forall clause_in_model clauses →
  intrinsic_gas [] = Ok 21000
  ∧ (clauses ≠ [] →
       intrinsic_gas clauses = Ok (5000 + Zsum (map clause_cost clauses)))
  ∧ Forall (λ c, data_gas (data c)
                 = Ok (4 * zero_pairs (data c) + 68 * nonzero_pairs (data c)))
           clauses
  ∧ (∀ c, clauses = [c] → to c ≠ None → to c ≠ Some ""%string →
       data c = "0x00ff"%string →
       intrinsic_gas clauses = Ok 21072)
  ∧ (∀ c, clauses = [c] → to c = None ∨ to c = Some ""%string →
       data c = "0x00ff"%string →
       intrinsic_gas clauses = Ok 53072).
Proof.
  intros Hwf.
  assert (Hne : clauses ≠ [] →
    intrinsic_gas clauses = Ok (5000 + Zsum (map clause_cost clauses))).
  { intros Hne. unfold intrinsic_gas. cbv zeta.
    case_bool_decide as Hlen.
    - destruct clauses; [done | simpl in Hlen; lia].
    - apply (intrinsic_gas_loop clauses Hwf). }
  split; [reflexivity|]. split; [exact Hne|]. split; [|split].
  - eapply Forall_impl; [exact Hwf|]. intros c Hdata.
    by apply data_gas_even.
  - intros c -> Hto Hne' Hdata. rewrite Hne by done.
    cbn [map Zsum foldr]. unfold clause_cost. rewrite Hdata.
    destruct (to c) as [a|]; [|done].
    case_bool_decide; [congruence|]. by vm_compute.
  - intros c -> Hto Hdata. rewrite Hne by done.
    cbn [map Zsum foldr]. unfold clause_cost. rewrite Hdata.
    destruct Hto as [-> | ->]; by vm_compute.
Qed.

Lemma intrinsic_gas_spec_witness :
  Forall clause_in_model example_clauses
  ∧ intrinsic_gas example_clauses = Ok 21072
  ∧ Forall clause_in_model three_clauses
  ∧ intrinsic_gas three_clauses = Ok 85504
  ∧ Forall clause_in_model [mkClause (Some ""%string) 0 "0x00ff"]
  ∧ intrinsic_gas [mkClause (Some ""%string) 0 "0x00ff"] = Ok 53072.
Proof.
  assert (H : Forall clause_in_model example_clauses).
  { repeat constructor. by exists 3%nat. }
  assert (H3 : Forall clause_in_model three_clauses).
  { repeat constructor; [by exists 7%nat | by exists 7%nat | by exists 3%nat]. }
  assert (He : Forall clause_in_model [mkClause (Some ""%string) 0 "0x00ff"]).
  { repeat constructor. by exists 3%nat. }
  split; [exact H|]. split; [|split; [exact H3|split; [|split; [exact He|]]]].
  - destruct (intrinsic_gas_spec example_clauses H) as (_ & _ & _ & Hex & _).
    by apply (Hex _ eq_refl).
  - destruct (intrinsic_gas_spec three_clauses H3) as (_ & Hsum & _).
    by rewrite Hsum.
  - destruct (intrinsic_gas_spec _ He) as (_ & _ & _ & _ & Hempty).
    apply (Hempty _ eq_refl); [by right | reflexivity].
Defined.

(** C2, as stated, fails: a clause whose [to] is present, as the empty
    string, with data ["0x00ff"], is charged as a contract creation, 53072
    and not 21072: the code tests [if clause.to:]. *)
Lemma empty_destination_charged_as_creation :
  to (mkClause (Some ""%string) 0 "0x00ff") ≠ None
  ∧ intrinsic_gas [mkClause (Some ""%string) 0 "0x00ff"] = Ok 53072
  ∧ intrinsic_gas [mkClause (Some ""%string) 0 "0x00ff"] ≠ Ok 21072.
Proof. split; [done|]. split; [reflexivity | by vm_compute]. Qed.

(** ** The delegation flag *)

(** C5. [is_delegated] is true exactly when the body has a [Reserved], its
    [features] is present and non-zero, and [features & 1 == 1]: true for
    features 1 and 3, false for features 2, for a body without [Reserved] and
    for features absent or zero. *)
Theorem is_delegated_spec (tx : Transaction) :
  (is_delegated tx = true ↔
     ∃ r f, reserved (body tx) = Some r ∧ features r = Some f
            ∧ f ≠ 0 ∧ Z.land f 1 = 1)
  ∧ (∀ r, reserved (body tx) = Some r →
       (features r = Some 1 → is_delegated tx = true)
       ∧ (features r = Some 2 → is_delegated tx = false)
       ∧ (features r = Some 3 → is_delegated tx = true)
       ∧ (features r = None ∨ features r = Some 0 → is_delegated tx = false))
  ∧ (reserved (body tx) = None → is_delegated tx = false).
Proof.
  assert (Hiff : is_delegated tx = true ↔
     ∃ r f, reserved (body tx) = Some r ∧ features r = Some f
            ∧ f ≠ 0 ∧ Z.land f 1 = 1).
  { unfold is_delegated, Body_to_dict, DELEGATED_MASK, truthy_int.
    destruct (reserved (body tx)) as [[[f|] [[|u us]|]]|]; cbn;
      try (destruct (Z.eqb_spec f 0) as [->|Hf]; cbn;
           try (destruct (Z.eqb_spec f 0); [done|]; cbn));
      try rewrite bool_decide_eq_true;
      (split;
       [ try done; intros; eexists _, _; eauto
       | intros (r & f' & ? & ? & ? & ?); by simplify_eq/= ]). }
  split; [exact Hiff|]. split.
  - intros r Hr. repeat split.
    + intros Hf. apply Hiff. by exists r, 1.
    + intros Hf. apply not_true_is_false. rewrite Hiff.
      intros (r' & f & ? & ? & ? & Hland). by simplify_eq/=.
    + intros Hf. apply Hiff. by exists r, 3.
    + intros Hf. apply not_true_is_false. rewrite Hiff.
      intros (r' & f & ? & ? & ? & Hland). destruct Hf; by simplify_eq/=.
  - intros Hr. apply not_true_is_false. rewrite Hiff.
    intros (r' & f & ? & ? & ? & Hland). by simplify_eq/=.
Qed.

(** ** The canonical form of the reserved field *)

Section Trim.

Lemma range_from_seq (fuel start stop : nat) :
  (stop - start ≤ fuel)%nat →
  range_from fuel start stop 1 = seq start (stop - start).
Proof.
  revert start. induction fuel as [|fuel IH]; intros start Hfuel.
  - replace (stop - start)%nat with 0%nat by lia. done.
  - simpl. case_decide.
    + rewrite IH by lia.
      replace (stop - start)%nat with (S (stop - (start + 1)))%nat by lia.
      simpl. by rewrite Nat.add_1_r.
    + replace (stop - start)%nat with 0%nat by lia. done.
Qed.

Lemma range_seq (stop : nat) : range 0 stop 1 = seq 0 stop.
Proof. unfold range. rewrite range_from_seq by lia. f_equal. lia. Qed.

Lemma list_getitem_Some {A} (l : list A) (i : nat) (x : A) :
  l !! i = Some x → list_getitem l i = Ok x.
Proof. unfold list_getitem. by intros ->. Qed.

(** The second loop copies the items up to the one found. *)
Lemma copy_loop {A} (m_list : list A) (k : nat) :
  ∀ (start : nat) (return_list : list A),
    (start + k ≤ length m_list)%nat →
    for_in (seq start k) return_list (λ y return_list,
      x ← list_getitem m_list y;
      Ok (return_list ++ [x]))
    = Ok (return_list ++ take k (drop start m_list)).
Proof.
  induction k as [|k IH]; intros start return_list Hlen.
  - simpl. by rewrite app_nil_r.
  - cbn [seq]. rewrite for_in_cons. cbv beta.
    destruct (lookup_lt_is_Some_2 m_list start) as [x Hx]; [lia|].
    rewrite (list_getitem_Some _ _ _ Hx). cbn [mbind result_bind].
    rewrite IH by lia. f_equal.
    rewrite (drop_S _ _ _ Hx). cbn [take].
    by rewrite <- app_assoc.
Qed.

(** The first loop finds the right-most item of non-zero length. *)
Lemma scan_right_most_spec (length_list : list nat) (n : nat) :
  (n ≤ length length_list)%nat →
  match scan_right_most length_list (range_down n) with
  | Ok None => Forall (λ k, k = 0%nat) (take n length_list)
  | Ok (Some i) =>
      (i < n)%nat
      ∧ (∃ k, length_list !! i = Some k ∧ k ≠ 0%nat)
      ∧ Forall (λ k, k = 0%nat) (drop (S i) (take n length_list))
  | Raise _ => False
  end.
Proof.
  induction n as [|n IH]; intros Hn.
  - simpl. constructor.
  - cbn [range_down scan_right_most].
    destruct (lookup_lt_is_Some_2 length_list n) as [k Hk]; [lia|].
    rewrite (list_getitem_Some _ _ _ Hk). cbn [mbind result_bind].
    case_decide as Hz.
    + split; [lia|]. split; [eauto|].
      rewrite drop_ge by (rewrite length_take; lia). constructor.
    + assert (k = 0%nat) as -> by lia.
      specialize (IH ltac:(lia)).
      rewrite (take_S_r _ _ _ Hk).
      destruct (scan_right_most length_list (range_down n)) as [[i|]|]; [| |done].
      * destruct IH as (Hi & Hnz & Hall).
        split; [lia|]. split; [done|].
        rewrite drop_app_le by (rewrite length_take; lia).
        apply Forall_app. split; [done | by constructor].
      * apply Forall_app. split; [done | by constructor].
Qed.

(** The two loops together: what is kept ends in an item of non-zero
    length, what is dropped has zero length only. *)
Lemma right_strip (m_list : list bytes) :
  ∃ canon dropped,
    (right_most_none_empty ←
       scan_right_most (length <$> m_list)
         (range_down (length (length <$> m_list)));
     match right_most_none_empty with
     | None => Ok []
     | Some right_most =>
         for_in (range 0 (right_most + 1) 1) [] (λ y return_list,
           x ← list_getitem m_list y;
           Ok (return_list ++ [x]))
     end) = Ok canon
    ∧ m_list = canon ++ dropped
    ∧ Forall (λ x : bytes, length x = 0%nat) dropped
    ∧ (∀ x, last canon = Some x → length x ≠ 0%nat).
Proof.
  pose proof (scan_right_most_spec (length <$> m_list)
                (length (length <$> m_list)) ltac:(done)) as Hscan.
  rewrite firstn_all in Hscan.
  destruct (scan_right_most _ _) as [[i|]|]; [| |done];
    cbn [mbind result_bind].
  - destruct Hscan as (Hi & (k & Hk & Hnz) & Hall).
    rewrite length_fmap in Hi.
    exists (take (i + 1) m_list), (drop (i + 1) m_list).
    rewrite range_seq, copy_loop by (simpl; lia).
    rewrite drop_0, take_drop. simpl. repeat split; try done.
    + rewrite <- fmap_drop in Hall. rewrite Nat.add_1_r.
      by apply Forall_fmap in Hall.
    + intros x Hx. rewrite list_lookup_fmap in Hk.
      destruct (m_list !! i) as [y|] eqn:Hy; [|done]. simplify_eq/=.
      rewrite Nat.add_1_r, (take_S_r _ _ _ Hy), last_snoc in Hx.
      by simplify_eq.
  - exists [], m_list. repeat split; try done.
    by apply Forall_fmap in Hscan.
Qed.

End Trim.

Section EncodeReserved.

Lemma encode_reserved_unfold (tx : Transaction) :
  _encode_reserved tx =
  (f_bytes ← lift SerializationError
               (FeaturesKind_serialize (features_or_default (body tx)));
   let m_list := [f_bytes] ++ unused_or_default (body tx) in
   right_most_none_empty ←
     scan_right_most (length <$> m_list)
       (range_down (length (length <$> m_list)));
   match right_most_none_empty with
   | None => Ok []
   | Some right_most =>
       for_in (range 0 (right_most + 1) 1) [] (λ y return_list,
         x ← list_getitem m_list y;
         Ok (return_list ++ [x]))
   end).
Proof.
  unfold _encode_reserved, features_or_default, unused_or_default,
    Body_to_dict, int_or, truthy_int.
  destruct (reserved (body tx)) as [[[f|] [[|u us]|]]|];
    cbn -[FeaturesKind_serialize scan_right_most for_in range range_down];
    try destruct (Z.eqb_spec f 0) as [->|Hf];
    cbn -[FeaturesKind_serialize scan_right_most for_in range range_down];
    try destruct (Z.eqb_spec f 0); try done.
Qed.

Lemma encode_reserved_strip (tx : Transaction) (e : bytes) :
  FeaturesKind_serialize (features_or_default (body tx)) = Some e →
  ∃ canon dropped,
    _encode_reserved tx = Ok canon
    ∧ e :: unused_or_default (body tx) = canon ++ dropped
    ∧ Forall (λ x : bytes, length x = 0%nat) dropped
    ∧ (∀ x, last canon = Some x → length x ≠ 0%nat).
Proof.
  intros He. rewrite encode_reserved_unfold, He.
  cbn [lift mbind result_bind]. cbv zeta.
  apply (right_strip ([e] ++ unused_or_default (body tx))).
Qed.

Lemma all_empty_canon (canon dropped : list bytes) :
  Forall (λ x : bytes, length x = 0%nat) (canon ++ dropped) →
  (∀ x, last canon = Some x → length x ≠ 0%nat) →
  canon = [].
Proof.
  intros Hall Hlast.
  destruct canon as [|a canon _] using rev_ind; [done|].
  apply Forall_app in Hall as [Hall _]. apply Forall_app in Hall as [_ Ha].
  apply Forall_inv in Ha. by destruct (Hlast a (last_snoc _ _)).
Qed.

Lemma encode_reserved_empty (tx : Transaction) :
  features_or_default (body tx) = 0 →
  Forall (λ x : bytes, length x = 0%nat) (unused_or_default (body tx)) →
  _encode_reserved tx = Ok [].
Proof.
  intros Hf Hu.
  destruct (encode_reserved_strip tx []) as (canon & dropped & -> & Hc & Hd & Hl).
  { by rewrite Hf. }
  f_equal. apply (all_empty_canon canon dropped); [|done].
  rewrite <- Hc. by constructor.
Qed.

End EncodeReserved.

Section ReservedOnTheWire.
Context {codec : Codec}.

Lemma encode_without_reserved (tx : Transaction) :
  _encode_reserved tx = Ok [] → encode tx = encode (without_reserved tx).
Proof.
  intros He. unfold encode. rewrite He.
  rewrite (encode_reserved_empty (without_reserved tx)) by (by constructor).
  cbn [mbind result_bind]. cbv zeta.
  replace (set_reserved (Body_to_dict (body (without_reserved tx))) [])
    with (set_reserved (Body_to_dict (body tx)) ([] : list bytes)); [done|].
  unfold Body_to_dict. destruct (reserved (body tx)); reflexivity.
Qed.

Lemma decode_unfold (raw : bytes) (unsigned : bool) :
  decode raw unsigned =
  (p ← (if unsigned then
          body ← lift DeserializationError (UnsignedTx_decode raw);
          Ok (body, None)
        else
          decoded ← lift DeserializationError (SignedTx_decode raw);
          sig ← lift KeyError (snd decoded);
          Ok (fst decoded, Some sig));
   decode_dict (fst p) (snd p)).
Proof.
  unfold decode.
  destruct unsigned; [destruct (UnsignedTx_decode raw) as [d|]
                     | destruct (SignedTx_decode raw) as [[d [s|]]|]];
    reflexivity.
Qed.

(** Under the signed schema the signature is read first: without it
    [decode] stops there, whatever the rest of the dictionary. *)
Lemma decode_without_signature (raw : bytes) (d : BodyDict (list bytes)) :
  SignedTx_decode raw = Some (d, None) → decode raw false = Raise KeyError.
Proof. intros Hd. rewrite decode_unfold. by rewrite Hd. Qed.

(** [decode] is its codec step, then [decode_dict]. *)
Lemma decode_of_decoded_dict (raw : bytes) (unsigned : bool)
    (d : BodyDict (list bytes)) :
  decoded_dict raw unsigned = Some d →
  ∃ sig, decode raw unsigned = decode_dict d sig
         ∧ (unsigned = true → sig = None).
Proof.
  rewrite decode_unfold. unfold decoded_dict. destruct unsigned.
  - intros ->. by exists None.
  - destruct (SignedTx_decode raw) as [[d' [s|]]|]; [|done..].
    intros [= <-]. by exists (Some s).
Qed.

Lemma decode_dict_untrimmed (d : BodyDict (list bytes)) (sig : option bytes) :
  decode_dict d sig = Raise UntrimmedReservedField ↔
  ∃ r x, d_reserved d = Some r ∧ last r = Some x ∧ length x = 0%nat.
Proof.
  unfold decode_dict, UntrimmedReservedField. cbv zeta.
  destruct (d_reserved d) as [r|] eqn:Hr; cbn [from_option id].
  - destruct r as [|x0 r' _] using rev_ind.
    + cbn. unfold del_reserved. rewrite Hr. cbn.
      split; [by destruct sig as [[|??]|] | intros (?&?&?&?&?); simplify_eq/=].
    + rewrite length_app. cbn [length].
      case_decide; [|lia].
      assert (Hlk : (r' ++ [x0]) !! (length r' + 1 - 1)%nat = Some x0).
      { replace (length r' + 1 - 1)%nat with (length r' + 0)%nat by lia.
        by rewrite lookup_app_r, Nat.add_0_r, Nat.sub_diag by lia. }
      rewrite (list_getitem_Some _ _ _ Hlk).
      cbn [mbind result_bind].
      case_decide as Hx0.
      * split; [intros _; exists (r' ++ [x0]), x0; by rewrite last_snoc | done].
      * split; [|intros (r & x & Heq & Hl & Hlen);
                  simplify_eq; rewrite last_snoc in Hl; by simplify_eq].
        intros Hraise. exfalso.
        unfold list_getitem in Hraise.
        destruct ((r' ++ [x0]) !! 0%nat) as [r0|]; [|done].
        cbn [lift mbind result_bind] in Hraise.
        destruct (FeaturesKind_deserialize r0); [|done].
        cbn in Hraise.
        repeat case_decide; cbn in Hraise;
          by destruct sig as [[|??]|].
  - cbn. unfold del_reserved. rewrite Hr. cbn.
    split; [done | intros (?&?&?&?&?); simplify_eq/=].
Qed.

Lemma decode_empty_reserved (raw : bytes) (unsigned : bool)
    (d : BodyDict (list bytes)) :
  decoded_dict raw unsigned = Some d → d_reserved d = Some [] →
  ∃ tx, decode raw unsigned = Ok tx ∧ reserved (body tx) = None.
Proof.
  intros Hd Hr.
  destruct (decode_of_decoded_dict raw unsigned d Hd) as (sig & -> & _).
  unfold decode_dict. rewrite Hr.
  cbn. unfold del_reserved. rewrite Hr. cbn.
  destruct sig as [sig|]; [destruct (truthy_list sig)|]; eauto.
Qed.

(** C3. For every body the canonical reserved list is the candidate list,
    the encoded features (0 by default) followed by the unused items (none
    by default), cut right after its right-most item of non-zero length:
    what is kept is a prefix that does not end in an empty item, what is
    dropped is empty items only.  When every item is empty, as for
    [Reserved] with features 0 and no unused item and for a body without
    [Reserved], the canonical list is empty and the encoding is that of
    the body without [Reserved].  A decoded empty reserved list gives a
    body without [Reserved]. *)
Theorem reserved_canonical_form :
  (∀ (tx : Transaction) (e : bytes),
     FeaturesKind_serialize (features_or_default (body tx)) = Some e →
     ∃ canon dropped,
       _encode_reserved tx = Ok canon
       ∧ [e] ++ unused_or_default (body tx) = canon ++ dropped
       ∧ Forall (λ x : bytes, length x = 0%nat) dropped
       ∧ (∀ x, last canon = Some x → length x ≠ 0%nat)
       ∧ (Forall (λ x : bytes, length x = 0%nat)
            ([e] ++ unused_or_default (body tx)) →
          canon = [] ∧ encode tx = encode (without_reserved tx)))
  ∧ (∀ tx : Transaction,
       reserved (body tx) = None
       ∨ reserved (body tx) = Some (mkReserved (Some 0) (Some [])) →
       _encode_reserved tx = Ok []
       ∧ encode tx = encode (without_reserved tx))
  ∧ (∀ (raw : bytes) (unsigned : bool) (d : BodyDict (list bytes)),
       decoded_dict raw unsigned = Some d → d_reserved d = Some [] →
       ∃ tx, decode raw unsigned = Ok tx ∧ reserved (body tx) = None).
Proof.
  split; [|split].
  - intros tx e He.
    destruct (encode_reserved_strip tx e He)
      as (canon & dropped & Hc & Happ & Hd & Hl).
    exists canon, dropped.
    split; [done|]. split; [done|]. split; [done|]. split; [done|].
    intros Hall. cbn [app] in Hall. rewrite Happ in Hall.
    pose proof (all_empty_canon _ _ Hall Hl) as ->.
    split; [done | by apply encode_without_reserved].
  - intros tx Hr.
    assert (He : _encode_reserved tx = Ok []).
    { apply encode_reserved_empty;
        unfold features_or_default, unused_or_default;
        destruct Hr as [-> | ->]; done. }
    split; [done | by apply encode_without_reserved].
  - apply decode_empty_reserved.
Qed.

(** C4, amended. [decode] fails with the untrimmed-reserved-field error
    exactly when the codec returned a dictionary, with the signature to
    read under the signed schema, whose reserved list is not empty and has
    a last item of zero length.  Under the signed schema a dictionary
    without signature makes [decode] fail with [KeyError] before the
    reserved list is looked at.  On untrimmed input, with a signature or
    without, [decode] returns no transaction. *)
Theorem decode_untrimmed (raw : bytes) (unsigned : bool) :
  (decode raw unsigned = Raise UntrimmedReservedField ↔
     ∃ d r x, decoded_dict raw unsigned = Some d
              ∧ d_reserved d = Some r
              ∧ last r = Some x ∧ length x = 0%nat)
  ∧ (∀ d, unsigned = false → SignedTx_decode raw = Some (d, None) →
       decode raw unsigned = Raise KeyError)
  ∧ (∀ d r x, codec_dict raw unsigned = Some d →
       d_reserved d = Some r → last r = Some x → length x = 0%nat →
       ∀ tx, decode raw unsigned ≠ Ok tx).
Proof.
  assert (Hiff : decode raw unsigned = Raise UntrimmedReservedField ↔
     ∃ d r x, decoded_dict raw unsigned = Some d
              ∧ d_reserved d = Some r
              ∧ last r = Some x ∧ length x = 0%nat).
  { rewrite decode_unfold. unfold decoded_dict.
    destruct unsigned.
    - destruct (UnsignedTx_decode raw) as [d|]; cbn [lift mbind result_bind].
      + rewrite (decode_dict_untrimmed d None). split.
        * intros (r & x & ?). exists d, r, x. by split.
        * intros (d' & r & x & ? & ?). simplify_eq. eauto.
      + split; [done | intros (?&?&?&?&?); simplify_eq].
    - destruct (SignedTx_decode raw) as [[d [s|]]|];
        cbn [lift mbind result_bind option_bind fst snd].
      + rewrite (decode_dict_untrimmed d (Some s)). split.
        * intros (r & x & ?). exists d, r, x. by split.
        * intros (d' & r & x & ? & ?). simplify_eq. eauto.
      + split; [done | intros (?&?&?&?&?); simplify_eq].
      + split; [done | intros (?&?&?&?&?); simplify_eq]. }
  split; [exact Hiff|]. split.
  { intros d -> Hd. by apply (decode_without_signature raw d). }
  intros d r x Hd Hr Hl Hx tx Htx.
  unfold codec_dict in Hd. destruct unsigned.
  - assert (Hraise : decode raw true = Raise UntrimmedReservedField).
    { apply Hiff. exists d, r, x. by split. }
    congruence.
  - destruct (SignedTx_decode raw) as [[d' [s|]]|] eqn:Hs; [| |done].
    + cbn in Hd. injection Hd as ->.
      assert (Hraise : decode raw false = Raise UntrimmedReservedField).
      { apply Hiff. exists d, r, x. split; [|done].
        unfold decoded_dict. by rewrite Hs. }
      congruence.
    + rewrite (decode_without_signature raw d' Hs) in Htx. done.
Qed.

End ReservedOnTheWire.

(** ** Hexadecimal text *)

Section Hex.

Lemma hex_byte (x : byte) :
  let hi := hex_digit (Byte.to_N x / 16) in
  let lo := hex_digit (Byte.to_N x mod 16) in
  is_space hi = false
  ∧ digit_value hi = Some (Byte.to_N x / 16)%N
  ∧ digit_value lo = Some (Byte.to_N x mod 16)%N
  ∧ byte_of_N (16 * (Byte.to_N x / 16) + Byte.to_N x mod 16) = x
  ∧ lower_hex_char hi = true ∧ lower_hex_char lo = true.
Proof. destruct x; vm_compute; done. Qed.

Lemma bytes_fromhex_hex (b : bytes) : bytes_fromhex (bytes_hex b) = Some b.
Proof.
  induction b as [|x b IH]; [done|].
  destruct (hex_byte x) as (Hsp & Hhi & Hlo & Hx & _).
  cbn [bytes_hex bytes_fromhex].
  rewrite Hsp, Hhi, Hlo, IH. cbn [mbind option_bind]. by rewrite Hx.
Qed.

Lemma bytes_hex_lower (b : bytes) :
  Forall (λ c, lower_hex_char c = true) (list_ascii_of_string (bytes_hex b)).
Proof.
  induction b as [|x b IH]; [constructor|].
  destruct (hex_byte x) as (_ & _ & _ & _ & Hhi & Hlo).
  cbn [bytes_hex list_ascii_of_string]. by repeat constructor.
Qed.

Lemma address_text_from (a : bytes) :
  truthy_str (address_text a) = true
  ∧ bytes_fromhex (str_from 2 (address_text a)) = Some a.
Proof. split; [done | apply bytes_fromhex_hex]. Qed.

End Hex.

(** ** The signing hash *)

Section SigningHash.
Context {codec : Codec} {crypto : Crypto}.

Lemma get_signing_hash_unfold (tx : Transaction) (delegate_for : option string) :
  get_signing_hash tx delegate_for =
  (h ← plain_signing_hash tx;
   match delegate_for with
   | Some delegate_for =>
       if truthy_str delegate_for then
         if negb (address_is_address delegate_for)
         then Raise InvalidDelegateAddress
         else
           raw ← lift ValueError (bytes_fromhex (str_from 2 delegate_for));
           Ok (fst (blake2b256 [h; raw]))
       else Ok h
   | None => Ok h
   end).
Proof.
  unfold get_signing_hash, plain_signing_hash.
  destruct (_encode_reserved tx) as [l|]; [|done]. cbn [mbind result_bind].
  by destruct (UnsignedTx_encode _).
Qed.

Lemma get_signing_hash_plain (tx : Transaction) :
  get_signing_hash tx None = plain_signing_hash tx.
Proof.
  rewrite get_signing_hash_unfold. by destruct (plain_signing_hash tx).
Qed.

Lemma encode_reserved_cases (tx : Transaction) :
  (∃ canon, _encode_reserved tx = Ok canon)
  ∨ _encode_reserved tx = Raise SerializationError.
Proof.
  destruct (FeaturesKind_serialize (features_or_default (body tx))) as [e|] eqn:He.
  - left. destruct (encode_reserved_strip tx e He) as (canon & _ & Hc & _). eauto.
  - right. by rewrite encode_reserved_unfold, He.
Qed.

Lemma plain_signing_hash_cases (tx : Transaction) :
  (∃ h, plain_signing_hash tx = Ok h)
  ∨ plain_signing_hash tx = Raise SerializationError.
Proof.
  unfold plain_signing_hash.
  destruct (encode_reserved_cases tx) as [[canon ->] | ->]; [|by right].
  cbn [mbind result_bind].
  destruct (UnsignedTx_encode _); cbn; eauto.
Qed.

(** C7, as amended. Without a delegate [get_signing_hash] returns the
    hash of the unsigned-schema encoding of the canonical dictionary of
    the current body, 32 bytes long when the hash primitive's digests are,
    and the same for any two transactions with the same body.  With a
    delegate that is not the empty string, and the body being encodable,
    it raises the invalid-delegate-address error when the string is not a
    well-formed address, and otherwise returns the hash of the plain hash
    followed by the raw bytes of the delegate address. *)
Theorem get_signing_hash_spec (tx : Transaction) :
  get_signing_hash tx None = plain_signing_hash tx
  ∧ (∀ h, (∀ bufs, length (fst (blake2b256 bufs)) = 32%nat) →
       get_signing_hash tx None = Ok h → length h = 32%nat)
  ∧ (∀ tx' delegate_for, body tx' = body tx →
       get_signing_hash tx' delegate_for = get_signing_hash tx delegate_for)
  ∧ (∀ h delegate_for,
       plain_signing_hash tx = Ok h → delegate_for ≠ ""%string →
       (address_is_address delegate_for = false →
          get_signing_hash tx (Some delegate_for) = Raise InvalidDelegateAddress)
       ∧ (∀ raw, address_is_address delegate_for = true →
            bytes_fromhex (str_from 2 delegate_for) = Some raw →
            get_signing_hash tx (Some delegate_for)
            = Ok (fst (blake2b256 [h; raw])))).
Proof.
  split; [apply get_signing_hash_plain|]. split; [|split].
  - intros h H32. rewrite get_signing_hash_plain. unfold plain_signing_hash.
    destruct (_encode_reserved tx); [|done]. cbn [mbind result_bind].
    destruct (UnsignedTx_encode _); [|done]. cbn.
    intros [= <-]. apply H32.
  - intros tx' d Hb. unfold get_signing_hash, _encode_reserved. by rewrite Hb.
  - intros h d Hh Hd. rewrite get_signing_hash_unfold, Hh.
    cbn [mbind result_bind].
    assert (truthy_str d = true) as ->.
    { unfold truthy_str. by case_bool_decide. }
    split.
    + by intros ->.
    + intros raw -> Hraw. by rewrite Hraw.
Qed.

(** C9. With the empty string for [delegate_for] the delegation branch is
    skipped: the address validator has no say, the invalid-delegate-address
    error is not raised, and the result is that of the call without a
    delegate, the plain signing hash: the hash of the encoding, under the
    unsigned schema, of the body's dictionary with the canonical reserved
    list. *)
Theorem get_signing_hash_empty_delegate (tx : Transaction) :
  get_signing_hash tx (Some ""%string) = get_signing_hash tx None
  ∧ get_signing_hash tx (Some ""%string) ≠ Raise InvalidDelegateAddress
  ∧ (∀ is_address' : string → bool,
       @get_signing_hash codec (with_is_address crypto is_address') tx (Some ""%string)
       = get_signing_hash tx (Some ""%string))
  ∧ get_signing_hash tx (Some ""%string) = plain_signing_hash tx
  ∧ (∀ reserved_list buff,
       _encode_reserved tx = Ok reserved_list →
       UnsignedTx_encode (set_reserved (Body_to_dict (body tx)) reserved_list)
       = Some buff →
       get_signing_hash tx (Some ""%string) = Ok (fst (blake2b256 [buff]))).
Proof.
  split; [|split; [|split; [|split]]].
  - by rewrite !get_signing_hash_unfold.
  - rewrite get_signing_hash_unfold.
    destruct (plain_signing_hash_cases tx) as [[h ->] | ->]; done.
  - intros f. unfold get_signing_hash.
    destruct (_encode_reserved tx); [|done]. cbn [mbind result_bind].
    by destruct (UnsignedTx_encode _).
  - rewrite get_signing_hash_unfold.
    destruct (plain_signing_hash_cases tx) as [[h ->] | ->]; done.
  - intros reserved_list buff Hl Hbuff. unfold get_signing_hash.
    rewrite Hl. cbn [mbind result_bind]. by rewrite Hbuff.
Qed.

End SigningHash.

(** ** The recovery accessors *)

Section Recovery.
Context {codec : Codec} {crypto : Crypto}.

Lemma signature_valid_iff (tx : Transaction) :
  _signature_valid tx = true ↔
  ∃ sig, signature tx = Some sig ∧ length sig = required_length tx.
Proof.
  unfold _signature_valid, required_length, get_signature.
  destruct (signature tx) as [sig|].
  - destruct sig as [|x sig]; cbn [truthy_list negb].
    + split; [done|]. intros (sig & [= <-] & Hlen).
      by destruct (is_delegated tx).
    + rewrite bool_decide_eq_true. split; [eauto|].
      by intros (sig' & [= <-] & Hlen).
  - split; [done | by intros (? & ? & ?)].
Qed.

Lemma recover_unfold (h sig : bytes) (k : bytes → result (option string)) :
  (pub_key ← lift ValueError (secp256k1_recover h sig);
   a ← lift ValueError (address_public_key_to_address pub_key);
   k a)
  = match recover_address h sig with
    | Some a => k a
    | None => Raise ValueError
    end.
Proof.
  unfold recover_address.
  destruct (secp256k1_recover h sig) as [pk|]; [|done]. cbn.
  by destruct (address_public_key_to_address pk).
Qed.

Lemma get_origin_eq (tx : Transaction) :
  get_origin tx = Ok (address_text <$> origin_address tx).
Proof.
  unfold get_origin, origin_address, signature_slice, get_signature.
  destruct (_signature_valid tx) eqn:Hv; [|done]. cbn [negb].
  apply signature_valid_iff in Hv as (sig & Hsig & _). rewrite Hsig.
  rewrite get_signing_hash_plain.
  destruct (plain_signing_hash tx) as [h|]; [|done].
  cbn [lift mbind result_bind]. rewrite recover_unfold.
  by destruct (recover_address h (take 65 sig)).
Qed.

Lemma get_id_eq (tx : Transaction) :
  get_id tx =
  Ok (match plain_signing_hash tx, origin_address tx with
      | Ok h, Some a => Some ("0x" +:+ bytes_hex (fst (blake2b256 [h; a])))
      | _, _ => None
      end).
Proof.
  unfold get_id, origin_address, signature_slice, get_signature.
  destruct (_signature_valid tx) eqn:Hv;
    [|by destruct (plain_signing_hash tx)]. cbn [negb].
  apply signature_valid_iff in Hv as (sig & Hsig & _). rewrite Hsig.
  rewrite get_signing_hash_plain.
  destruct (plain_signing_hash tx) as [h|]; [|done].
  cbn [lift mbind result_bind]. rewrite recover_unfold.
  by destruct (recover_address h (take 65 sig)).
Qed.

Lemma get_delegator_eq (tx : Transaction) :
  get_delegator tx =
  Ok (if is_delegated tx then
        match plain_signing_hash tx, origin_address tx, signature tx with
        | Ok h, Some a, Some sig =>
            if address_is_address (address_text a)
            then address_text
                   <$> recover_address (fst (blake2b256 [h; a])) (drop 65 sig)
            else None
        | _, _, _ => None
        end
      else None).
Proof.
  unfold get_delegator. rewrite get_origin_eq.
  destruct (is_delegated tx); [|done]. cbn [negb].
  unfold origin_address, signature_slice, get_signature.
  destruct (_signature_valid tx) eqn:Hv;
    [|by destruct (plain_signing_hash tx)]. cbn [negb].
  apply signature_valid_iff in Hv as (sig & Hsig & _). rewrite Hsig.
  destruct (plain_signing_hash tx) as [h|] eqn:Hh; [|done].
  destruct (recover_address h (take 65 sig)) as [a|]; [|done].
  cbn [fmap option_fmap option_map mbind result_bind from_option].
  destruct (address_text_from a) as [-> Hraw]. cbn [negb].
  rewrite get_signing_hash_unfold, Hh. cbn [mbind result_bind].
  destruct (address_text_from a) as [-> _].
  destruct (address_is_address (address_text a)); [|done]. cbn [negb].
  rewrite Hraw. cbn [lift mbind result_bind]. rewrite recover_unfold.
  by destruct (recover_address _ (drop 65 sig)).
Qed.

(** C6. The recovery accessors never raise: each returns a value, and
    that value is absent whenever the signature is absent or not of the
    required length (130 bytes for a delegated transaction, 65 otherwise)
    or the recovery of the public key or the derivation of the address
    fails.  On a delegated transaction with a 130-byte signature whose
    first half recovers to the first signer under the plain signing hash
    and whose second half recovers to the second signer under the
    delegate hash for the first signer's address, [get_origin] is the
    first signer's address and [get_delegator] the second's. *)
Theorem recovery_accessors_total (tx : Transaction) :
  (∃ o d i, get_origin tx = Ok o ∧ get_delegator tx = Ok d ∧ get_id tx = Ok i)
  ∧ ((signature tx = None
      ∨ ∃ sig, signature tx = Some sig ∧ length sig ≠ required_length tx) →
     get_origin tx = Ok None ∧ get_delegator tx = Ok None
     ∧ get_id tx = Ok None)
  ∧ (∀ h sig, plain_signing_hash tx = Ok h → signature tx = Some sig →
       recover_address h (take 65 sig) = None →
       get_origin tx = Ok None ∧ get_delegator tx = Ok None
       ∧ get_id tx = Ok None)
  ∧ (∀ h sig a, plain_signing_hash tx = Ok h → signature tx = Some sig →
       recover_address h (take 65 sig) = Some a →
       recover_address (fst (blake2b256 [h; a])) (drop 65 sig) = None →
       get_delegator tx = Ok None)
  ∧ (∀ h sig a1 a2,
       is_delegated tx = true → signature tx = Some sig →
       length sig = 130%nat → plain_signing_hash tx = Ok h →
       recover_address h (take 65 sig) = Some a1 →
       address_is_address (address_text a1) = true →
       recover_address (fst (blake2b256 [h; a1])) (drop 65 sig) = Some a2 →
       get_origin tx = Ok (Some (address_text a1))
       ∧ get_delegator tx = Ok (Some (address_text a2))).
Proof.
  rewrite get_origin_eq, get_delegator_eq, get_id_eq.
  split; [by eexists _, _, _|]. split; [|split; [|split]].
  - intros Hsig.
    assert (Hv : _signature_valid tx = false).
    { apply not_true_is_false. rewrite signature_valid_iff.
      intros (sig & Hs & Hlen).
      destruct Hsig as [Hn | (sig' & Hs' & Hlen')]; congruence. }
    unfold origin_address. rewrite Hv.
    destruct (is_delegated tx), (plain_signing_hash tx); done.
  - intros h sig Hh Hsig Hrec. unfold origin_address. rewrite Hh, Hsig, Hrec.
    destruct (is_delegated tx), (_signature_valid tx); done.
  - intros h sig a Hh Hsig Hrec Hrec2.
    unfold origin_address. rewrite Hh, Hsig, Hrec.
    destruct (is_delegated tx), (_signature_valid tx),
      (address_is_address (address_text a)); try done.
    by rewrite Hrec2.
  - intros h sig a1 a2 Hdel Hsig Hlen Hh Hrec1 Haddr Hrec2.
    assert (Hv : _signature_valid tx = true).
    { apply signature_valid_iff. exists sig. split; [done|].
      unfold required_length. by rewrite Hdel. }
    unfold origin_address. by rewrite Hv, Hh, Hsig, Hrec1, Hdel, Haddr, Hrec2.
Qed.

(** C8. [get_id] is absent unless the signature is valid.  With a valid
    signature it recovers the origin as [get_origin] does, and is absent
    exactly when [get_origin] is, and returns the hash of the plain signing
    hash followed by the origin's address bytes, as ["0x"] and lowercase
    hexadecimal digits.  Transactions with the same body and the same
    signature have the same id. *)
Theorem get_id_spec (tx : Transaction) :
  (_signature_valid tx = false → get_id tx = Ok None)
  ∧ (∀ h sig a,
       _signature_valid tx = true → plain_signing_hash tx = Ok h →
       signature tx = Some sig → recover_address h (take 65 sig) = Some a →
       get_origin tx = Ok (Some (address_text a))
       ∧ get_id tx = Ok (Some ("0x" +:+ bytes_hex (fst (blake2b256 [h; a])))))
  ∧ (get_id tx = Ok None ↔ get_origin tx = Ok None)
  ∧ (∀ i, get_id tx = Ok (Some i) →
       ∃ digits, i = ("0x" +:+ digits)%string
                 ∧ Forall (λ c, lower_hex_char c = true)
                     (list_ascii_of_string digits))
  ∧ (∀ tx', body tx' = body tx → signature tx' = signature tx →
       get_id tx' = get_id tx).
Proof.
  rewrite get_origin_eq, get_id_eq.
  split; [|split; [|split; [|split]]].
  - intros Hv. unfold origin_address. rewrite Hv.
    by destruct (plain_signing_hash tx).
  - intros h sig a Hv Hh Hsig Hrec.
    unfold origin_address. by rewrite Hv, Hh, Hsig, Hrec.
  - unfold origin_address.
    destruct (_signature_valid tx), (plain_signing_hash tx) as [h|],
      (signature tx) as [sig|]; try done.
    by destruct (recover_address h (take 65 sig)).
  - intros i Hi.
    destruct (plain_signing_hash tx) as [h|]; [|done].
    destruct (origin_address tx) as [a|]; [|done].
    injection Hi as <-. eexists. split; [reflexivity|]. apply bytes_hex_lower.
  - intros tx' Hb Hs. destruct tx as [b s], tx' as [b' s']. simplify_eq/=.
    apply get_id_eq.
Qed.

End Recovery.

(** ** The numeric kind *)

Section Numeric.

Lemma byte_of_N_to_N (n : N) : (n < 256)%N → Byte.to_N (byte_of_N n) = n.
Proof.
  intros Hn. unfold byte_of_N.
  destruct (Byte.of_N n) as [b|] eqn:Hb.
  - by apply Byte.to_of_N.
  - apply Byte.of_N_None_iff in Hb. lia.
Qed.

Lemma le_bytes_value (fuel : nat) :
  ∀ n : N, (n < 2 ^ N.of_nat fuel)%N →
    fold_right (λ x acc, acc * 256 + Byte.to_N x)%N 0%N (le_bytes fuel n) = n.
Proof.
  induction fuel as [|fuel IH]; intros n Hn.
  - simpl in *. lia.
  - cbn [le_bytes]. destruct (N.eqb_spec n 0) as [->|Hn0]; [done|].
    cbn [fold_right]. rewrite IH.
    + rewrite byte_of_N_to_N by (apply N.mod_lt; lia).
      rewrite (N.div_mod n 256) at 3 by lia. lia.
    + apply N.Div0.div_lt_upper_bound.
      rewrite Nat2N.inj_succ, N.pow_succ_r' in Hn.
      assert (2 ^ N.of_nat fuel ≠ 0)%N by (apply N.pow_nonzero; lia). lia.
Qed.

Lemma big_endian_value_big_endian (n : N) : big_endian_value (big_endian n) = n.
Proof.
  unfold big_endian_value, big_endian.
  rewrite <- fold_left_rev_right, rev_involutive.
  apply le_bytes_value. rewrite N2Nat.id. apply N.size_gt.
Qed.

Lemma big_endian_empty (n : N) : length (big_endian n) = 0%nat ↔ n = 0%N.
Proof.
  unfold big_endian. rewrite length_rev. split.
  - intros Hlen. destruct n as [|p]; [done|]. exfalso.
    destruct (N.to_nat (N.size (N.pos p))) as [|fuel] eqn:Hfuel.
    + simpl in Hfuel. lia.
    + simpl in Hlen. lia.
  - intros ->. done.
Qed.

Lemma NumericKind_round_trip (max_bytes : nat) (obj : Z) (serial : bytes) :
  NumericKind_serialize max_bytes obj = Some serial →
  NumericKind_deserialize max_bytes serial = Some obj
  ∧ (length serial = 0%nat ↔ obj = 0).
Proof.
  unfold NumericKind_serialize, NumericKind_deserialize.
  destruct (Z.ltb_spec obj 0) as [|Hobj]; [done|].
  case_decide as Hlen; [|done]. intros [= <-].
  rewrite decide_True by done.
  rewrite big_endian_value_big_endian, Z2N.id by done.
  split; [done|]. rewrite big_endian_empty. lia.
Qed.

End Numeric.


(** ** Encoding and decoding *)

Section RoundTrip.
Context {codec : Codec}.

Lemma eq_spec (self other : Transaction) :
  __eq__ self other = true ↔
  signature self = signature other
  ∧ Body_to_dict (body self) = Body_to_dict (body other).
Proof.
  unfold __eq__. cbv zeta.
  rewrite andb_true_iff, !bool_decide_eq_true. done.
Qed.

Lemma clauses_round_trip (cs : list Clause) :
  Clause_to_dict
    <$> ((λ each, mkClause (d_to each) (d_value each) (d_data each))
           <$> (Clause_to_dict <$> cs))
  = Clause_to_dict <$> cs.
Proof.
  induction cs as [|[t v d] cs IH]; [done|]. cbn. by f_equal.
Qed.

Lemma encode_reserved_trimmed (tx : Transaction) (e x : bytes) :
  FeaturesKind_serialize (features_or_default (body tx)) = Some e →
  last ([e] ++ unused_or_default (body tx)) = Some x → length x ≠ 0%nat →
  _encode_reserved tx = Ok ([e] ++ unused_or_default (body tx)).
Proof.
  intros He Hlast Hx.
  destruct (encode_reserved_strip tx e He)
    as (canon & dropped & -> & Happ & Hd & Hl).
  f_equal. cbn [app] in *. rewrite Happ in *.
  destruct dropped as [|y dropped _] using rev_ind; [by rewrite app_nil_r|].
  rewrite app_assoc, last_snoc in Hlast. simplify_eq.
  apply Forall_app in Hd as [_ Hy]. apply Forall_inv in Hy. done.
Qed.

Lemma Body_to_dict_rebuilt (b : Body) :
  features_or_default b ≠ 0 ∨ unused_or_default b ≠ [] →
  Body_to_dict (mkBody
    (d_chainTag (Body_to_dict b)) (d_blockRef (Body_to_dict b))
    (d_expiration (Body_to_dict b))
    ((λ each, mkClause (d_to each) (d_value each) (d_data each))
       <$> d_clauses (Body_to_dict b))
    (d_gasPriceCoef (Body_to_dict b)) (d_gas (Body_to_dict b))
    (d_dependsOn (Body_to_dict b)) (d_nonce (Body_to_dict b))
    (Some (mkReserved (Some (features_or_default b))
       (if decide (1 < S (length (unused_or_default b)))%nat
        then Some (unused_or_default b) else None))))
  = Body_to_dict b.
Proof.
  destruct b as [ct br ex cs gp g dep n r].
  unfold features_or_default, unused_or_default, Body_to_dict, truthy_int.
  destruct r as [[[f|] [[|u us]|]]|]; cbn; intros [Hf | Hu]; try done;
    try (destruct (Z.eqb_spec f 0) as [->|Hf0]; cbn; try done);
    by rewrite clauses_round_trip.
Qed.

Lemma decode_dict_wire (tx : Transaction) (l : list bytes) (sig : option bytes) :
  _encode_reserved tx = Ok l →
  reserved_trimmed (body tx) →
  ∃ tx',
    decode_dict (set_reserved (Body_to_dict (body tx)) l) sig = Ok tx'
    ∧ signature tx' = match sig with
                      | Some s => if truthy_list s then Some s else None
                      | None => None
                      end
    ∧ Body_to_dict (body tx') = Body_to_dict (body tx).
Proof.
  intros Hl Htrim. unfold decode_dict. cbv zeta.
  cbn [set_reserved d_reserved from_option id].
  destruct Htrim as [Hnone | (e & x & He & Hlast & Hx)].
  - rewrite (encode_reserved_empty tx) in Hl
      by (unfold features_or_default, unused_or_default; by rewrite Hnone).
    injection Hl as <-. cbn.
    destruct sig as [[|s0 s]|]; cbn; (eexists; split; [reflexivity|]);
      (split; [done|]); unfold Body_to_dict; cbn; rewrite Hnone; cbn;
      by rewrite clauses_round_trip.
  - rewrite (encode_reserved_trimmed tx e x He Hlast Hx) in Hl.
    injection Hl as <-.
    destruct (NumericKind_round_trip _ _ _ He) as [Hdes Hzero].
    fold FeaturesKind_deserialize in Hdes.
    assert (Hne : features_or_default (body tx) ≠ 0
                  ∨ unused_or_default (body tx) ≠ []).
    { destruct (unused_or_default (body tx)) as [|u us]; [|by right].
      left. cbn in Hlast. simplify_eq. rewrite <- Hzero. done. }
    cbn [app length]. rewrite decide_True by lia.
    assert (Hlk : (e :: unused_or_default (body tx))
                    !! (S (length (unused_or_default (body tx))) - 1)%nat
                  = Some x).
    { rewrite last_lookup in Hlast. cbn [app length] in Hlast.
      by rewrite <- Hlast, Nat.sub_1_r. }
    rewrite (list_getitem_Some _ _ _ Hlk). cbn [mbind result_bind].
    rewrite decide_False by done.
    cbn [list_getitem lookup list_lookup lift mbind result_bind].
    rewrite Hdes. cbn [lift mbind result_bind].
    pose proof (Body_to_dict_rebuilt (body tx) Hne) as Hdict.
    destruct (decide (1 < S (length (unused_or_default (body tx))))%nat);
      cbn [set_reserved d_reserved d_features d_unused truthy_ReservedDict
           lift mbind result_bind d_chainTag d_blockRef d_expiration
           d_clauses d_gasPriceCoef d_gas d_dependsOn d_nonce drop];
      destruct sig as [[|s0 s]|]; cbn [truthy_list];
      (eexists; split; [reflexivity|]; split; [reflexivity|]);
      exact Hdict.
Qed.

Lemma BodyDict_fields (d1 d2 : BodyDict ReservedDict) :
  d1 = d2 ↔
  d_chainTag d1 = d_chainTag d2 ∧ d_blockRef d1 = d_blockRef d2
  ∧ d_expiration d1 = d_expiration d2 ∧ d_clauses d1 = d_clauses d2
  ∧ d_gasPriceCoef d1 = d_gasPriceCoef d2 ∧ d_gas d1 = d_gas d2
  ∧ d_dependsOn d1 = d_dependsOn d2 ∧ d_nonce d1 = d_nonce d2
  ∧ d_reserved d1 = d_reserved d2.
Proof.
  split; [by intros ->|].
  destruct d1, d2. cbn. intros (?&?&?&?&?&?&?&?&?). by simplify_eq.
Qed.

(** C1, as amended. For every transaction whose field values the codec
    takes as they are, whose reserved field is absent or has a candidate
    list ending in an item of non-zero length, and whose signature is
    absent or not empty, [decode (encode tx)], with [unsigned] set exactly
    when the signature is absent, returns a transaction equal to [tx].
    This holds for any number of clauses, 0, 1 and 3 among them.  Two
    transactions are equal exactly when their signatures are equal and
    the dictionaries of their bodies are equal field by field, the clause
    list as a list. *)
Theorem encode_decode_round_trip (tx : Transaction) :
  codec_round_trips tx →
  reserved_trimmed (body tx) →
  signature tx ≠ Some [] →
  (∃ raw tx',
     encode tx = Ok raw
     ∧ decode raw (bool_decide (signature tx = None)) = Ok tx'
     ∧ __eq__ tx' tx = true)
  ∧ (∀ tx', __eq__ tx' tx = true ↔
       signature tx' = signature tx
       ∧ let d' := Body_to_dict (body tx') in
         let d := Body_to_dict (body tx) in
         d_chainTag d' = d_chainTag d ∧ d_blockRef d' = d_blockRef d
         ∧ d_expiration d' = d_expiration d ∧ d_clauses d' = d_clauses d
         ∧ d_gasPriceCoef d' = d_gasPriceCoef d ∧ d_gas d' = d_gas d
         ∧ d_dependsOn d' = d_dependsOn d ∧ d_nonce d' = d_nonce d
         ∧ d_reserved d' = d_reserved d).
Proof.
  intros (d & raw & Hd & Hcodec) Htrim Hsig.
  split; [|intros tx'; cbv zeta; by rewrite eq_spec, BodyDict_fields].
  unfold wire_dict in Hd.
  destruct (_encode_reserved tx) as [l|] eqn:Hl; [|done].
  cbn [mbind result_bind] in Hd. injection Hd as <-.
  exists raw. unfold encode. rewrite Hl, decode_unfold.
  cbn [mbind result_bind]. cbv zeta.
  destruct (signature tx) as [sig|] eqn:Hs.
  - destruct Hcodec as [Henc Hdec].
    assert (Htruthy : truthy_list sig = true) by (by destruct sig).
    rewrite Htruthy, Henc, bool_decide_eq_false_2, Hdec by done.
    cbn [lift mbind result_bind fst snd].
    destruct (decode_dict_wire tx l (Some sig) Hl Htrim) as (tx' & Hdd & Hs' & Hb).
    exists tx'. split; [done|]. split; [done|].
    apply eq_spec. by rewrite Hs', Htruthy, Hs.
  - destruct Hcodec as [Henc Hdec].
    rewrite Henc, bool_decide_eq_true_2, Hdec by done.
    cbn [lift mbind result_bind fst snd].
    destruct (decode_dict_wire tx l None Hl Htrim) as (tx' & Hdd & Hs' & Hb).
    exists tx'. split; [done|]. split; [done|].
    apply eq_spec. by rewrite Hs', Hs.
Qed.

(** Whatever the codec, a [Reserved] whose candidate list has empty items
    only is lost on the way: the decoded transaction has none, and the
    dictionaries of the two bodies differ in the ["reserved"] key. *)
Lemma round_trip_loses_empty_reserved (tx : Transaction) (r : Reserved) :
  codec_round_trips tx →
  reserved (body tx) = Some r →
  features_or_default (body tx) = 0 →
  Forall (λ x : bytes, length x = 0%nat) (unused_or_default (body tx)) →
  signature tx = None →
  ∃ raw tx',
    encode tx = Ok raw ∧ decode raw true = Ok tx' ∧ __eq__ tx' tx = false.
Proof.
  intros (d & raw & Hd & Hcodec) Hr Hf Hu Hs.
  rewrite Hs in Hcodec. destruct Hcodec as [Henc Hdec].
  unfold wire_dict in Hd.
  rewrite (encode_reserved_empty tx Hf Hu) in Hd.
  cbn [mbind result_bind] in Hd. injection Hd as <-.
  exists raw. unfold encode.
  rewrite (encode_reserved_empty tx Hf Hu), Hs. cbn [mbind result_bind].
  cbv zeta. rewrite Henc.
  destruct (decode_empty_reserved raw true _ Hdec eq_refl) as (tx' & Htx' & Hnone).
  exists tx'. split; [done|]. split; [done|].
  apply not_true_is_false. rewrite eq_spec. intros [_ Hdict].
  apply (f_equal d_reserved) in Hdict.
  unfold Body_to_dict in Hdict. rewrite Hnone, Hr in Hdict. done.
Qed.

End RoundTrip.

(** ** The statements on the example transactions *)

Lemma is_delegated_spec_witness :
  reserved (body delegated_tx)
  = Some (mkReserved (Some 1) (Some [[Byte.x0f; Byte.x0f]; [Byte.x01; Byte.x01]]))
  ∧ is_delegated delegated_tx = true
  ∧ is_delegated plain_tx = false.
Proof.
  destruct (is_delegated_spec delegated_tx) as (_ & H1 & _).
  destruct (is_delegated_spec plain_tx) as (_ & _ & H2).
  split; [reflexivity|]. split.
  - destruct (H1 _ eq_refl) as (Hone & _). by apply Hone.
  - by apply H2.
Defined.

Lemma reserved_canonical_form_witness :
  FeaturesKind_serialize (features_or_default (body padded_reserved_tx))
  = Some [Byte.x05]
  ∧ (∃ canon dropped,
       _encode_reserved padded_reserved_tx = Ok canon
       ∧ [[Byte.x05]] ++ unused_or_default (body padded_reserved_tx)
         = canon ++ dropped
       ∧ Forall (λ x : bytes, length x = 0%nat) dropped
       ∧ (∀ x, last canon = Some x → length x ≠ 0%nat))
  ∧ _encode_reserved empty_reserved_tx = Ok []
  ∧ @encode Reference.codec empty_reserved_tx
    = @encode Reference.codec (without_reserved empty_reserved_tx)
  ∧ (∃ tx, @decode Reference.codec
             (default [] (@UnsignedTx_encode Reference.codec
                (set_reserved (Body_to_dict (body empty_reserved_tx)) []))) true
           = Ok tx
           ∧ reserved (body tx) = None).
Proof.
  destruct (@reserved_canonical_form Reference.codec) as (H1 & H2 & H3).
  assert (He : FeaturesKind_serialize
                 (features_or_default (body padded_reserved_tx))
               = Some [Byte.x05]) by (by vm_compute).
  split; [exact He|]. split; [|split; [|split]].
  - destruct (H1 padded_reserved_tx [Byte.x05] He)
      as (canon & dropped & Hc & Happ & Hd & Hl & _).
    by exists canon, dropped.
  - apply (H2 empty_reserved_tx). by right.
  - apply (H2 empty_reserved_tx). by right.
  - eapply (H3 _ true); by vm_compute.
Defined.

Lemma decode_untrimmed_witness :
  @decoded_dict Reference.codec untrimmed_raw true
  = Some (set_reserved (Body_to_dict (body_with [] None)) [[Byte.x01]; []])
  ∧ @decode Reference.codec untrimmed_raw true = Raise UntrimmedReservedField
  ∧ (∀ tx, @decode Reference.codec untrimmed_raw true ≠ Ok tx)
  ∧ @SignedTx_decode Reference.codec untrimmed_raw
    = Some (set_reserved (Body_to_dict (body_with [] None)) [[Byte.x01]; []],
            None)
  ∧ @decode Reference.codec untrimmed_raw false = Raise KeyError
  ∧ (∀ tx, @decode Reference.codec untrimmed_raw false ≠ Ok tx).
Proof.
  assert (Hd : @decoded_dict Reference.codec untrimmed_raw true
    = Some (set_reserved (Body_to_dict (body_with [] None)) [[Byte.x01]; []]))
    by (by vm_compute).
  assert (Hc : @codec_dict Reference.codec untrimmed_raw true
    = Some (set_reserved (Body_to_dict (body_with [] None)) [[Byte.x01]; []]))
    by (by vm_compute).
  assert (Hs : @SignedTx_decode Reference.codec untrimmed_raw
    = Some (set_reserved (Body_to_dict (body_with [] None)) [[Byte.x01]; []],
            None))
    by (by vm_compute).
  assert (Hc' : @codec_dict Reference.codec untrimmed_raw false
    = Some (set_reserved (Body_to_dict (body_with [] None)) [[Byte.x01]; []]))
    by (by vm_compute).
  destruct (@decode_untrimmed Reference.codec untrimmed_raw true)
    as (Hiff & _ & Hno).
  destruct (@decode_untrimmed Reference.codec untrimmed_raw false)
    as (_ & Hkey & Hno').
  split; [exact Hd|]. split; [|split; [|split; [exact Hs|split]]].
  - apply Hiff. eexists _, _, []. split; [exact Hd|]. by split.
  - apply (Hno _ [[Byte.x01]; []] [] Hc); reflexivity.
  - by apply (Hkey _ eq_refl Hs).
  - apply (Hno' _ [[Byte.x01]; []] [] Hc'); reflexivity.
Defined.

(** C4, as stated, fails: read under the signed schema, the bytes of an
    unsigned transaction decode to a dictionary whose reserved list ends in
    an item of zero length, and [decode] fails with [KeyError], on the
    signature that is not there, and not with the untrimmed-field error. *)
Lemma untrimmed_without_signature_is_key_error :
  ∃ d, @SignedTx_decode Reference.codec untrimmed_raw = Some (d, None)
       ∧ d_reserved d = Some [[Byte.x01]; []]
       ∧ @decode Reference.codec untrimmed_raw false = Raise KeyError
       ∧ @decode Reference.codec untrimmed_raw false
         ≠ Raise UntrimmedReservedField.
Proof.
  eexists. split; [by vm_compute|]. split; [reflexivity|].
  split; by vm_compute.
Qed.

Lemma checksum_length (bufs : list bytes) :
  length (fst (Reference.checksum bufs)) = 32%nat.
Proof.
  unfold Reference.checksum. cbn [fst].
  rewrite length_take, length_app, length_replicate. lia.
Qed.

Lemma get_signing_hash_spec_witness :
  (∃ h, @get_signing_hash Reference.codec Reference.crypto plain_tx None = Ok h
        ∧ length h = 32%nat)
  ∧ @get_signing_hash Reference.codec Reference.crypto plain_tx (Some "0xzz"%string)
    = Raise InvalidDelegateAddress
  ∧ (∃ h raw,
       @plain_signing_hash Reference.codec Reference.crypto plain_tx = Ok h
       ∧ bytes_fromhex (str_from 2 example_address) = Some raw
       ∧ @get_signing_hash Reference.codec Reference.crypto plain_tx
           (Some example_address)
         = Ok (fst (Reference.checksum [h; raw]))).
Proof.
  destruct (@get_signing_hash_spec Reference.codec Reference.crypto plain_tx)
    as (Hplain & H32 & _ & Hdel).
  assert (Hh : ∃ h, @plain_signing_hash Reference.codec Reference.crypto plain_tx
                    = Ok h) by (eexists; by vm_compute).
  destruct Hh as [h Hh].
  split; [|split].
  - exists h. rewrite Hplain. split; [exact Hh|].
    apply (H32 h checksum_length). by rewrite Hplain.
  - apply (Hdel h "0xzz"%string Hh); [done | reflexivity].
  - assert (Hraw : ∃ raw, bytes_fromhex (str_from 2 example_address) = Some raw)
      by (eexists; by vm_compute).
    destruct Hraw as [raw Hraw].
    exists h, raw. split; [exact Hh|]. split; [exact Hraw|].
    apply (Hdel h example_address Hh); [done | reflexivity | exact Hraw].
Defined.

(** C7, as stated, fails: the empty string is supplied as delegate and is
    not a well-formed address, and yet [get_signing_hash] returns, with the
    plain signing hash. *)
Lemma empty_delegate_is_not_validated :
  Reference.is_address "" = false
  ∧ ∃ h, @plain_signing_hash Reference.codec Reference.crypto plain_tx = Ok h
         ∧ @get_signing_hash Reference.codec Reference.crypto plain_tx
             (Some ""%string) = Ok h.
Proof. split; [reflexivity|]. eexists. split; by vm_compute. Qed.

Lemma get_signing_hash_empty_delegate_witness :
  ∃ reserved_list buff,
    _encode_reserved plain_tx = Ok reserved_list
    ∧ @UnsignedTx_encode Reference.codec
        (set_reserved (Body_to_dict (body plain_tx)) reserved_list) = Some buff
    ∧ @get_signing_hash Reference.codec Reference.crypto plain_tx (Some ""%string)
      = Ok (fst (Reference.checksum [buff])).
Proof.
  assert (Hbuff : ∃ buff,
    @UnsignedTx_encode Reference.codec
      (set_reserved (Body_to_dict (body plain_tx)) []) = Some buff)
    by (eexists; by vm_compute).
  destruct Hbuff as [buff Hbuff].
  exists [], buff. split; [reflexivity|]. split; [exact Hbuff|].
  destruct (@get_signing_hash_empty_delegate Reference.codec Reference.crypto
              plain_tx) as (_ & _ & _ & _ & Hhash).
  by apply (Hhash [] buff).
Defined.

Lemma recovery_accessors_total_witness :
  (@get_origin Reference.codec Reference.crypto plain_tx = Ok None
   ∧ @get_delegator Reference.codec Reference.crypto plain_tx = Ok None
   ∧ @get_id Reference.codec Reference.crypto plain_tx = Ok None)
  ∧ @get_origin Reference.codec Reference.crypto delegated_tx
    = Ok (Some (address_text (replicate 20 Byte.x01)))
  ∧ @get_delegator Reference.codec Reference.crypto delegated_tx
    = Ok (Some (address_text (replicate 20 Byte.x02))).
Proof.
  split.
  - apply (@recovery_accessors_total Reference.codec Reference.crypto plain_tx).
    by left.
  - destruct (@recovery_accessors_total Reference.codec Reference.crypto
                delegated_tx) as (_ & _ & _ & _ & H).
    eapply H.
    + by vm_compute.
    + reflexivity.
    + by vm_compute.
    + by vm_compute.
    + by vm_compute.
    + by vm_compute.
    + by vm_compute.
Defined.

Lemma get_id_spec_witness :
  _signature_valid delegated_tx = true
  ∧ ∃ h a,
      @plain_signing_hash Reference.codec Reference.crypto delegated_tx = Ok h
      ∧ @get_origin Reference.codec Reference.crypto delegated_tx
        = Ok (Some (address_text a))
      ∧ @get_id Reference.codec Reference.crypto delegated_tx
        = Ok (Some ("0x" +:+ bytes_hex (fst (Reference.checksum [h; a])))).
Proof.
  split; [by vm_compute|].
  destruct (@get_id_spec Reference.codec Reference.crypto delegated_tx)
    as (_ & H & _).
  eexists _, _. split; [by vm_compute|].
  eapply H.
  - by vm_compute.
  - by vm_compute.
  - reflexivity.
  - by vm_compute.
Defined.

Lemma encode_decode_round_trip_witness :
  @codec_round_trips Reference.codec delegated_tx
  ∧ reserved_trimmed (body delegated_tx)
  ∧ signature delegated_tx ≠ Some []
  ∧ ∃ raw tx',
      @encode Reference.codec delegated_tx = Ok raw
      ∧ @decode Reference.codec raw
          (bool_decide (signature delegated_tx = None)) = Ok tx'
      ∧ __eq__ tx' delegated_tx = true.
Proof.
  assert (Hc : @codec_round_trips Reference.codec delegated_tx).
  { eexists _, _. split; [by vm_compute|]. split; by vm_compute. }
  assert (Ht : reserved_trimmed (body delegated_tx)).
  { right. eexists _, _. split; [by vm_compute|]. split; [reflexivity|].
    simpl. lia. }
  assert (Hs : signature delegated_tx ≠ Some []) by done.
  split; [exact Hc|]. split; [exact Ht|]. split; [exact Hs|].
  apply (@encode_decode_round_trip Reference.codec delegated_tx Hc Ht Hs).
Defined.

(** C1, as stated, fails: the transaction with no clause, no signature and
    a [Reserved] with features 0 and no unused item is encoded and decoded by
    a codec that takes its field values as they are, and the decoded
    transaction, which has no [Reserved], is not equal to it. *)
Lemma round_trip_fails_on_empty_reserved :
  @codec_round_trips Reference.codec empty_reserved_tx
  ∧ length (clauses (body empty_reserved_tx)) = 0%nat
  ∧ signature empty_reserved_tx = None
  ∧ ∃ raw tx',
      @encode Reference.codec empty_reserved_tx = Ok raw
      ∧ @decode Reference.codec raw true = Ok tx'
      ∧ __eq__ tx' empty_reserved_tx = false.
Proof.
  split; [|split; [reflexivity|split; [reflexivity|]]].
  - eexists _, _. split; [by vm_compute|]. split; by vm_compute.
  - eexists _, _. split; [by vm_compute|]. split; by vm_compute.
Qed.

(** * Further properties of the code *)

(** ** The gas estimator, on any input *)

Section GasOnAnyInput.

Lemma list_ascii_of_string_app (s1 s2 : string) :
  list_ascii_of_string (s1 +:+ s2)
  = list_ascii_of_string s1 ++ list_ascii_of_string s2.
Proof. induction s1 as [|c s1 IH]; [done|]. simpl. f_equal. exact IH. Qed.

Lemma pairs_gas_nonneg (l : list ascii) : 0 ≤ pairs_gas l.
Proof. unfold pairs_gas. lia. Qed.

Lemma scan_gas_shift (l : list ascii) :
  ∀ sum_up k, scan_gas l (sum_up + k) = (g ← scan_gas l sum_up; Ok (g + k)).
Proof.
  induction l as [|a|a b l IH] using list_pair_ind; intros sum_up k.
  - done.
  - cbn. case_bool_decide; [done|]. cbn. f_equal. lia.
  - cbn [scan_gas]. rewrite <- IH. f_equal. destruct (_ && _); lia.
Qed.

Lemma scan_gas_app (a b : list ascii) :
  Nat.Even (length a) →
  ∀ sum_up, scan_gas (a ++ b) sum_up = scan_gas b (sum_up + pairs_gas a).
Proof.
  induction a as [|x|x y a IH] using list_pair_ind; intros Hev sum_up.
  - cbn. f_equal. unfold pairs_gas. cbn. lia.
  - destruct Hev as [k Hk]. cbn in Hk. lia.
  - cbn [app scan_gas]. rewrite IH, pairs_gas_cons.
    + f_equal. destruct (_ && _); lia.
    + destruct Hev as [k Hk]. exists (k - 1)%nat. cbn in Hk. lia.
Qed.

Lemma scan_gas_bounds (l : list ascii) :
  ∀ sum_up g, scan_gas l sum_up = Ok g →
    sum_up + 4 * Z.of_nat ((length l + 1) / 2) ≤ g
    ∧ g ≤ sum_up + 68 * Z.of_nat ((length l + 1) / 2).
Proof.
  induction l as [|a|a b l IH] using list_pair_ind; intros sum_up g Hg.
  - cbn in *. simplify_eq. lia.
  - cbn in *. case_bool_decide; simplify_eq. lia.
  - cbn [scan_gas] in Hg. apply IH in Hg.
    assert (Hdiv : ((length (a :: b :: l) + 1) / 2 = S ((length l + 1) / 2))%nat).
    { cbn [length].
      replace (S (S (length l)) + 1)%nat with ((length l + 1) + 1 * 2)%nat by lia.
      rewrite Nat.div_add by lia. lia. }
    rewrite Hdiv. destruct (_ && _); lia.
Qed.

Lemma scan_gas_outcome (l : list ascii) (sum_up : Z) :
  (Nat.Odd (length l) ∧ last l = Some "0"%char → scan_gas l sum_up = Raise IndexError)
  ∧ (¬ (Nat.Odd (length l) ∧ last l = Some "0"%char) →
     ∃ g, scan_gas l sum_up = Ok g).
Proof.
  destruct (Nat.Even_or_Odd (length l)) as [Hev | Hodd].
  - split.
    + intros [[k Hk] _]. destruct Hev as [k' Hk']. lia.
    + intros _. rewrite scan_gas_even by done. eauto.
  - rewrite scan_gas_odd by done. split.
    + intros [_ Hl]. by rewrite bool_decide_eq_true_2.
    + intros Hn. rewrite bool_decide_eq_false_2 by tauto. eauto.
Qed.

Lemma data_raises_scan (d : string) :
  data_raises d ↔
  Nat.Odd (length (drop 2 (list_ascii_of_string d)))
  ∧ last (drop 2 (list_ascii_of_string d)) = Some "0"%char.
Proof.
  unfold data_raises, last_char. rewrite string_length_list, length_drop.
  destruct (list_ascii_of_string d) as [|a [|b [|c l]]]; cbn [length drop].
  - split; [lia|]. intros [[k Hk] _]. cbn in Hk. lia.
  - split; [lia|]. intros [[k Hk] _]. cbn in Hk. lia.
  - split; [lia|]. intros [[k Hk] _]. cbn in Hk. lia.
  - replace (S (S (S (length l))) - 2)%nat with (S (length l)) by lia.
    change (last (a :: b :: c :: l)) with (last (c :: l)).
    split.
    + intros ([k Hk] & _ & Hl). split; [exists (k - 1)%nat; lia | done].
    + intros ([k Hk] & Hl). split; [exists (k + 1)%nat; lia|]. split; [lia | done].
Qed.

Lemma data_gas_outcome (d : string) :
  (data_raises d → data_gas d = Raise IndexError)
  ∧ (¬ data_raises d → ∃ g, data_gas d = Ok g ∧ 0 ≤ g).
Proof.
  rewrite data_raises_scan, data_gas_scan.
  destruct (scan_gas_outcome (drop 2 (list_ascii_of_string d)) 0) as [Hr Hok].
  split; [exact Hr|]. intros Hn. destruct (Hok Hn) as [g Hg].
  exists g. split; [done|]. apply scan_gas_bounds in Hg. lia.
Qed.

Lemma data_raises_dec (d : string) : data_raises d ∨ ¬ data_raises d.
Proof.
  unfold data_raises.
  destruct (Nat.Even_or_Odd (String.length d)) as [[k Hk] | Hodd].
  - right. intros [[k' Hk'] _]. lia.
  - destruct (decide (3 ≤ String.length d)%nat); [|right; tauto].
    destruct (decide (last_char d = Some "0"%char)); [left | right]; tauto.
Qed.

End GasOnAnyInput.

(** [data_gas] adds up over concatenation and never looks at the first two
    characters: for data made of a two-character prefix, an even number of
    characters and a rest, the gas is that of the first part plus that of
    the rest behind any two-character prefix; exceptions of the rest are
    passed on. *)
Theorem data_gas_concat (p p' a b : string) :
  String.length p = 2%nat → String.length p' = 2%nat →
  Nat.Even (String.length a) →
  data_gas (p +:+ a +:+ b)
  = (gb ← data_gas (p' +:+ b);
     Ok (4 * zero_pairs (p +:+ a) + 68 * nonzero_pairs (p +:+ a) + gb))
  ∧ data_gas (p +:+ b) = data_gas (p' +:+ b).
Proof.
  intros Hp Hp' Ha.
  assert (Hdrop : ∀ q s, String.length q = 2%nat →
    drop 2 (list_ascii_of_string (q +:+ s)) = list_ascii_of_string s).
  { intros q s Hq. rewrite list_ascii_of_string_app.
    rewrite string_length_list in Hq. by rewrite drop_app_length'. }
  split.
  - rewrite !data_gas_scan, !Hdrop by done.
    rewrite list_ascii_of_string_app.
    rewrite scan_gas_app by (by rewrite <- string_length_list).
    rewrite Z.add_0_l, <- (Z.add_0_l (pairs_gas _)), scan_gas_shift.
    unfold zero_pairs, nonzero_pairs, hex_pairs. rewrite Hdrop by done.
    fold (pairs_gas (list_ascii_of_string a)).
    destruct (scan_gas (list_ascii_of_string b) 0) as [g|e]; [|done].
    cbn. f_equal. lia.
  - by rewrite !data_gas_scan, !Hdrop.
Qed.

Lemma data_gas_concat_witness :
  data_gas ("0x" +:+ "00ff" +:+ "0000")
  = (gb ← data_gas ("zz" +:+ "0000");
     Ok (4 * zero_pairs ("0x" +:+ "00ff") + 68 * nonzero_pairs ("0x" +:+ "00ff") + gb))
  ∧ data_gas ("0x" +:+ "0000") = data_gas ("zz" +:+ "0000").
Proof.
  apply (data_gas_concat "0x" "zz" "00ff" "0000"); [done | done | by exists 2%nat].
Defined.

(** Whenever [data_gas] returns, it has charged 4 or 68 for each turn of its
    loop, one turn for every second index from 2 on: the result lies between
    4 and 68 times the number of turns. *)
Theorem data_gas_bounds (d : string) (g : Z) :
  data_gas d = Ok g →
  4 * data_gas_turns d ≤ g ≤ 68 * data_gas_turns d.
Proof.
  rewrite data_gas_scan. intros Hg. apply scan_gas_bounds in Hg.
  unfold data_gas_turns. rewrite string_length_list.
  rewrite length_drop in Hg.
  assert (Hturns : ((length (list_ascii_of_string d) - 2 + 1) / 2
                    = (length (list_ascii_of_string d) - 1) / 2)%nat).
  { destruct (length (list_ascii_of_string d)) as [|[|n]]; [done | done|].
    f_equal. lia. }
  rewrite Hturns in Hg. lia.
Qed.

Lemma data_gas_bounds_witness :
  data_gas "0x00ff1" = Ok 140
  ∧ 4 * data_gas_turns "0x00ff1" ≤ 140 ≤ 68 * data_gas_turns "0x00ff1".
Proof.
  split; [reflexivity|]. by apply (data_gas_bounds "0x00ff1" 140).
Defined.


Section IntrinsicGasOnAnyInput.

Lemma for_in_ext {A S} (xs : list A) (body body' : A → S → result S) :
  (∀ x s, body x s = body' x s) →
  ∀ s, for_in xs s body = for_in xs s body'.
Proof.
  intros Hext. induction xs as [|x xs IH]; intros s; [done|].
  rewrite !for_in_cons, Hext. destruct (body' x s); [apply IH | done].
Qed.

Lemma for_in_app {A S} (xs ys : list A) (body : A → S → result S) :
  ∀ s, for_in (xs ++ ys) s body = (s' ← for_in xs s body; for_in ys s' body).
Proof.
  induction xs as [|x xs IH]; intros s; [done|].
  cbn [app]. rewrite !for_in_cons. destruct (body x s); [apply IH | done].
Qed.

Lemma intrinsic_gas_unfold (clauses : list Clause) :
  intrinsic_gas clauses =
  if bool_decide (length clauses = 0%nat) then Ok 21000
  else for_in clauses 5000 clause_step.
Proof.
  unfold intrinsic_gas. cbv zeta. case_bool_decide; [done|].
  apply for_in_ext. intros c s. unfold clause_step, has_destination, truthy_str.
  destruct (data_gas (data c)); [|done]. cbn.
  destruct (to c); cbn; [destruct (bool_decide _)|]; cbn; f_equal; lia.
Qed.

Lemma clause_loop_cons (c : Clause) (cs : list Clause) (sum_total : Z) :
  for_in (c :: cs) sum_total clause_step
  = match data_gas (data c) with
    | Ok g =>
        for_in cs (sum_total + ((if has_destination c then 16000 else 48000) + g))
          clause_step
    | Raise e => Raise e
    end.
Proof.
  rewrite for_in_cons. unfold clause_step at 2.
  by destruct (data_gas (data c)).
Qed.

Lemma clause_loop_shift (cs : list Clause) :
  ∀ sum_total k,
    for_in cs (sum_total + k) clause_step
    = (g ← for_in cs sum_total clause_step; Ok (g + k)).
Proof.
  induction cs as [|c cs IH]; intros sum_total k; [done|].
  rewrite !clause_loop_cons.
  destruct (data_gas (data c)) as [g|]; [|done].
  rewrite <- IH. f_equal. lia.
Qed.

Lemma clause_loop_outcome (cs : list Clause) :
  ∀ sum_total,
    (Exists (λ c, data_raises (data c)) cs →
     for_in cs sum_total clause_step = Raise IndexError)
    ∧ (¬ Exists (λ c, data_raises (data c)) cs →
       ∃ g, for_in cs sum_total clause_step = Ok g
            ∧ sum_total + 16000 * Z.of_nat (length cs) ≤ g).
Proof.
  induction cs as [|c cs IH]; intros sum_total.
  - split; [by intros ?%Exists_nil|]. intros _. exists sum_total. cbn. split; [done | lia].
  - rewrite clause_loop_cons.
    destruct (data_gas_outcome (data c)) as [Hr Hok].
    destruct (data_raises_dec (data c)) as [Hc | Hc].
    + rewrite (Hr Hc). split; [done|]. intros Hn. destruct Hn. by left.
    + destruct (Hok Hc) as (g0 & -> & Hg0).
      destruct (IH (sum_total + ((if has_destination c then 16000 else 48000) + g0)))
        as [IHr IHok].
      split.
      * intros [?|?]%Exists_cons; [done | by apply IHr].
      * intros Hn. destruct IHok as (g & Hg & Hle).
        { intros ?. apply Hn. by right. }
        exists g. split; [done|]. cbn [length].
        destruct (has_destination c); lia.
Qed.

End IntrinsicGasOnAnyInput.

(** [intrinsic_gas] raises, and then [IndexError], exactly when the data of
    some clause has an odd number of characters, three at least, ending in
    ["0"]; otherwise it returns, at least 21000 and at least 5000 plus 16000
    for each clause. *)
Theorem intrinsic_gas_outcome (clauses : list Clause) :
  (Exists (λ c, data_raises (data c)) clauses →
   intrinsic_gas clauses = Raise IndexError)
  ∧ (¬ Exists (λ c, data_raises (data c)) clauses →
     ∃ g, intrinsic_gas clauses = Ok g
          ∧ 21000 ≤ g
          ∧ 5000 + 16000 * Z.of_nat (length clauses) ≤ g).
Proof.
  rewrite intrinsic_gas_unfold.
  destruct (clause_loop_outcome clauses 5000) as [Hr Hok].
  destruct clauses as [|c cs].
  - split; [by intros ?%Exists_nil|]. intros _. exists 21000. cbn. split; [done | lia].
  - rewrite bool_decide_eq_false_2 by done. split; [exact Hr|].
    intros Hn. destruct (Hok Hn) as (g & Hg & Hle).
    exists g. split; [done|]. cbn [length] in *. lia.
Qed.

Lemma intrinsic_gas_outcome_witness :
  intrinsic_gas [mkClause None 0 "0x00ff"; mkClause None 0 "0x0"]
  = Raise IndexError
  ∧ ∃ g, intrinsic_gas three_clauses = Ok g
         ∧ 21000 ≤ g
         ∧ 5000 + 16000 * Z.of_nat (length three_clauses) ≤ g.
Proof.
  split.
  - apply (intrinsic_gas_outcome [mkClause None 0 "0x00ff"; mkClause None 0 "0x0"]).
    right. left. split; [by exists 1%nat|]. split; [cbn; lia | reflexivity].
  - apply (intrinsic_gas_outcome three_clauses).
    intros Hex. repeat apply Exists_cons in Hex as [Hex|Hex];
      try (destruct Hex as ([k Hk] & _); cbn in Hk; lia).
    by apply Exists_nil in Hex.
Defined.

(** The gas of two lists of clauses put together is the sum of their gas
    less the 5000 counted twice, when neither list is empty; an exception of
    either list is that of the whole. *)
Theorem intrinsic_gas_app (cs1 cs2 : list Clause) :
  cs1 ≠ [] → cs2 ≠ [] →
  intrinsic_gas (cs1 ++ cs2)
  = (g1 ← intrinsic_gas cs1; g2 ← intrinsic_gas cs2; Ok (g1 + g2 - 5000)).
Proof.
  intros H1 H2. rewrite !intrinsic_gas_unfold.
  rewrite !bool_decide_eq_false_2
    by (destruct cs1, cs2; cbn; done || lia).
  rewrite for_in_app.
  destruct (for_in cs1 5000 clause_step) as [g1|] eqn:Hg1; [|done].
  cbn [mbind result_bind].
  replace g1 with (5000 + (g1 - 5000)) at 1 by lia.
  rewrite clause_loop_shift.
  destruct (for_in cs2 5000 clause_step) as [g2|]; [|done].
  cbn. f_equal. lia.
Qed.

Lemma intrinsic_gas_app_witness :
  intrinsic_gas (example_clauses ++ three_clauses)
  = (g1 ← intrinsic_gas example_clauses;
     g2 ← intrinsic_gas three_clauses;
     Ok (g1 + g2 - 5000)).
Proof. by apply (intrinsic_gas_app example_clauses three_clauses). Defined.

(** [intrinsic_gas] looks at a clause only through its data and through
    whether its destination is a non-empty string: the value is ignored, a
    destination is not validated, and the empty string as destination is
    charged as a contract creation, like [None]. *)
Theorem intrinsic_gas_sees_destination_and_data (cs cs' : list Clause) :
  same_destinations_and_data cs cs' →
  intrinsic_gas cs = intrinsic_gas cs'.
Proof.
  intros Hsame. rewrite !intrinsic_gas_unfold.
  rewrite (Forall2_length _ _ _ Hsame).
  case_bool_decide; [done|]. generalize 5000.
  clear -Hsame.
  induction Hsame as [|c c' cs cs' [Hd Hdata] _ IH]; intros s; [done|].
  rewrite !clause_loop_cons, Hd, Hdata.
  destruct (data_gas (data c')); [apply IH | done].
Qed.

Lemma intrinsic_gas_sees_destination_and_data_witness :
  intrinsic_gas [mkClause (Some "") 5 "0x00ff"; mkClause (Some example_address) 1 "0x"]
  = intrinsic_gas [mkClause None 0 "0x00ff"; mkClause (Some "not an address") 2 "0x"].
Proof.
  apply intrinsic_gas_sees_destination_and_data.
  repeat constructor.
Defined.


(** ** Equality and what it preserves *)

Section Equality.
Context {codec : Codec} {crypto : Crypto}.

Lemma features_of_dict (b : Body) :
  features_or_default b
  = default 0 (d_reserved (Body_to_dict b) ≫= d_features).
Proof.
  unfold features_or_default, Body_to_dict, truthy_int.
  destruct (reserved b) as [[[f|] [[|u us]|]]|]; cbn; try done;
    by destruct (Z.eqb_spec f 0) as [->|].
Qed.

Lemma unused_of_dict (b : Body) :
  unused_or_default b
  = default [] (d_reserved (Body_to_dict b) ≫= d_unused).
Proof.
  unfold unused_or_default, Body_to_dict.
  destruct (reserved b) as [[[f|] [[|u us]|]]|]; cbn; try done;
    by destruct (truthy_int f).
Qed.

Lemma encode_reserved_of_dict (t1 t2 : Transaction) :
  Body_to_dict (body t1) = Body_to_dict (body t2) →
  _encode_reserved t1 = _encode_reserved t2.
Proof.
  intros Hd.
  by rewrite !encode_reserved_unfold, !features_of_dict, !unused_of_dict, Hd.
Qed.

Lemma clauses_of_dict (b1 b2 : Body) :
  Body_to_dict b1 = Body_to_dict b2 → clauses b1 = clauses b2.
Proof.
  intros Hd. apply (f_equal d_clauses) in Hd.
  assert (Hc : Clause_to_dict <$> clauses b1 = Clause_to_dict <$> clauses b2).
  { unfold Body_to_dict in Hd.
    by destruct (reserved b1), (reserved b2). }
  clear Hd. revert Hc. generalize (clauses b2).
  induction (clauses b1) as [|[t v d] cs IH]; intros [|[t' v' d'] cs']; try done.
  cbn. intros [= -> -> -> Hcs]. f_equal. by apply IH.
Qed.

End Equality.

(** Transactions that [__eq__] takes for equal agree on everything the class
    computes: the bytes of [encode], the signing hashes, the delegation flag,
    the origin, the delegator, the id and the intrinsic gas. *)
Theorem equal_transactions_agree `{codec : Codec} `{crypto : Crypto}
    (t1 t2 : Transaction) :
  __eq__ t1 t2 = true →
  encode t1 = encode t2
  ∧ (∀ delegate_for,
       get_signing_hash t1 delegate_for = get_signing_hash t2 delegate_for)
  ∧ is_delegated t1 = is_delegated t2
  ∧ get_origin t1 = get_origin t2
  ∧ get_delegator t1 = get_delegator t2
  ∧ get_id t1 = get_id t2
  ∧ get_intrinsic_gas t1 = get_intrinsic_gas t2.
Proof.
  intros [Hs Hd]%eq_spec.
  pose proof (encode_reserved_of_dict t1 t2 Hd) as Hr.
  assert (Hdel : is_delegated t1 = is_delegated t2).
  { unfold is_delegated. by rewrite Hd. }
  assert (Hv : _signature_valid t1 = _signature_valid t2).
  { unfold _signature_valid, get_signature. by rewrite Hdel, Hs. }
  assert (Hh : ∀ delegate_for,
    get_signing_hash t1 delegate_for = get_signing_hash t2 delegate_for).
  { intros delegate_for. unfold get_signing_hash. by rewrite Hr, Hd. }
  assert (Hp : plain_signing_hash t1 = plain_signing_hash t2).
  { by rewrite <- !get_signing_hash_plain. }
  assert (Ho : origin_address t1 = origin_address t2).
  { unfold origin_address. by rewrite Hv, Hp, Hs. }
  split; [unfold encode; by rewrite Hr, Hd, Hs|].
  split; [exact Hh|]. split; [exact Hdel|].
  rewrite !get_origin_eq, !get_delegator_eq, !get_id_eq.
  rewrite Ho, Hp, Hdel, Hs.
  repeat split. unfold get_intrinsic_gas. by rewrite (clauses_of_dict _ _ Hd).
Qed.

Lemma equal_transactions_agree_witness :
  __eq__ (with_reserved delegated_tx (Some (mkReserved (Some 1) (Some []))))
         (with_reserved delegated_tx (Some (mkReserved (Some 1) None))) = true
  ∧ @encode Reference.codec
      (with_reserved delegated_tx (Some (mkReserved (Some 1) (Some []))))
    = @encode Reference.codec
        (with_reserved delegated_tx (Some (mkReserved (Some 1) None))).
Proof.
  split; [reflexivity|].
  by apply (@equal_transactions_agree Reference.codec Reference.crypto).
Defined.

(** [__eq__] does not tell features 0 from no features, nor an empty list of
    unused items from none, but it tells a [Reserved] with no field from no
    [Reserved] at all. *)
Theorem eq_ignores_falsy_reserved_fields (tx : Transaction) (r : Reserved) :
  __eq__ (with_reserved tx (Some r))
         (with_reserved tx (Some (without_falsy_fields r))) = true
  ∧ __eq__ (with_reserved tx (Some (mkReserved None None)))
           (with_reserved tx None) = false.
Proof.
  split.
  - apply eq_spec. split; [done|].
    unfold Body_to_dict, without_falsy_fields, truthy_int.
    destruct r as [[f|] [[|u us]|]]; cbn; try done;
      destruct (Z.eqb_spec f 0) as [->|Hf]; cbn; try done;
      destruct f; cbn; try done.
  - apply not_true_is_false. intros [_ Hd]%eq_spec.
    apply (f_equal d_reserved) in Hd. done.
Qed.


(** ** What [decode] returns and how it fails *)

Section DecodeOutcome.
Context {codec : Codec}.

(** The transaction that [decode] builds from a dictionary with a reserved
    list that is empty or trimmed and readable. *)
Lemma decode_dict_ok (d : BodyDict (list bytes)) (sig : option bytes)
    (r : list bytes) :
  d_reserved d = Some r →
  (∀ x, last r = Some x → length x ≠ 0%nat) →
  (∀ e u, r = e :: u → is_Some (FeaturesKind_deserialize e)) →
  decode_dict d sig
  = Ok (mkTransaction
          (mkBody (d_chainTag d) (d_blockRef d) (d_expiration d)
             ((λ each, mkClause (d_to each) (d_value each) (d_data each))
                <$> d_clauses d)
             (d_gasPriceCoef d) (d_gas d) (d_dependsOn d) (d_nonce d)
             (reserved_of_list r))
          (match sig with
           | Some s => if truthy_list s then Some s else None
           | None => None
           end)).
Proof.
  intros Hr Hlast Hfeat. unfold decode_dict. cbv zeta.
  rewrite Hr. cbn [from_option id].
  destruct r as [|e u].
  - cbn. unfold del_reserved. rewrite Hr. cbn.
    by destruct sig as [[|??]|].
  - destruct (Hfeat e u eq_refl) as [f Hf].
    cbn [length]. rewrite decide_True by lia.
    destruct (proj2 (last_is_Some (e :: u)) ltac:(done)) as [x Hx].
    assert (Hlk : (e :: u) !! (S (length u) - 1)%nat = Some x).
    { rewrite last_lookup in Hx. cbn [length] in Hx.
      by rewrite <- Hx, Nat.sub_1_r. }
    rewrite (list_getitem_Some _ _ _ Hlk). cbn [mbind result_bind].
    rewrite decide_False by (by apply Hlast).
    cbn [list_getitem lookup list_lookup lift mbind result_bind reserved_of_list].
    rewrite Hf. cbn [lift mbind result_bind].
    destruct u as [|u0 u]; cbn [length];
      [rewrite decide_False by lia | rewrite decide_True by lia];
      cbn; by destruct sig as [[|??]|].
Qed.

Lemma decode_dict_inv (d : BodyDict (list bytes)) (sig : option bytes)
    (tx : Transaction) :
  decode_dict d sig = Ok tx →
  ∃ r, d_reserved d = Some r
       ∧ (∀ x, last r = Some x → length x ≠ 0%nat)
       ∧ (∀ e u, r = e :: u → is_Some (FeaturesKind_deserialize e)).
Proof.
  unfold decode_dict. cbv zeta. intros Hok.
  destruct (d_reserved d) as [r|] eqn:Hr; cbn [from_option id] in Hok.
  2:{ cbn in Hok. unfold del_reserved in Hok. by rewrite Hr in Hok. }
  exists r. split; [done|].
  destruct r as [|e u]; [by split|].
  cbn [length] in Hok. rewrite decide_True in Hok by lia.
  destruct (proj2 (last_is_Some (e :: u)) ltac:(done)) as [x Hx].
  assert (Hlk : (e :: u) !! (S (length u) - 1)%nat = Some x).
  { rewrite last_lookup in Hx. cbn [length] in Hx.
    by rewrite <- Hx, Nat.sub_1_r. }
  rewrite (list_getitem_Some _ _ _ Hlk) in Hok. cbn [mbind result_bind] in Hok.
  case_decide as Hlen; [done|].
  cbn [list_getitem lookup list_lookup lift mbind result_bind] in Hok.
  split.
  - intros x' Hx'. rewrite Hx in Hx'. by injection Hx' as <-.
  - intros e' u' [= <- <-].
    destruct (FeaturesKind_deserialize e); [eauto | done].
Qed.

Lemma decode_codec_step (raw : bytes) (unsigned : bool) :
  decode raw unsigned =
  if unsigned then
    match UnsignedTx_decode raw with
    | Some d => decode_dict d None
    | None => Raise DeserializationError
    end
  else
    match SignedTx_decode raw with
    | Some (d, Some sig) => decode_dict d (Some sig)
    | Some (_, None) => Raise KeyError
    | None => Raise DeserializationError
    end.
Proof.
  rewrite decode_unfold.
  destruct unsigned;
    [destruct (UnsignedTx_decode raw)
    | destruct (SignedTx_decode raw) as [[? [?|]]|]];
    reflexivity.
Qed.

(** A transaction that [decode] returns comes from a dictionary that the
    codec returned, with a signature under the signed schema. *)
Lemma decode_ok_inv (raw : bytes) (unsigned : bool) (tx : Transaction) :
  decode raw unsigned = Ok tx →
  ∃ d sig, decoded_dict raw unsigned = Some d
           ∧ decode_dict d sig = Ok tx
           ∧ (unsigned = true → sig = None).
Proof.
  rewrite decode_codec_step. unfold decoded_dict. destruct unsigned.
  - destruct (UnsignedTx_decode raw) as [d|]; [|done].
    intros Hok. by exists d, None.
  - destruct (SignedTx_decode raw) as [[d [s|]]|]; [|done..].
    intros Hok. by exists d, (Some s).
Qed.

End DecodeOutcome.


Section DecodeThenEncode.
Context {codec : Codec}.

Lemma clause_dicts_round_trip (cl : list ClauseDict) :
  Clause_to_dict
    <$> ((λ each, mkClause (d_to each) (d_value each) (d_data each)) <$> cl)
  = cl.
Proof. induction cl as [|[t v d] cl IH]; [done|]. cbn. by f_equal. Qed.

Lemma wire_dict_rebuilt (d : BodyDict (list bytes)) (sig : option bytes)
    (r : list bytes) :
  d_reserved d = Some r →
  (∀ x, last r = Some x → length x ≠ 0%nat) →
  (∀ e u, r = e :: u →
     ∃ f, FeaturesKind_deserialize e = Some f ∧ FeaturesKind_serialize f = Some e) →
  wire_dict (mkTransaction
    (mkBody (d_chainTag d) (d_blockRef d) (d_expiration d)
       ((λ each, mkClause (d_to each) (d_value each) (d_data each))
          <$> d_clauses d)
       (d_gasPriceCoef d) (d_gas d) (d_dependsOn d) (d_nonce d)
       (reserved_of_list r))
    sig) = Ok d.
Proof.
  intros Hr Hlast Hfeat. unfold wire_dict.
  match goal with |- context [_encode_reserved ?t] => set (tx := t) end.
  assert (He : _encode_reserved tx = Ok r).
  { destruct r as [|e u].
    - by apply encode_reserved_empty.
    - destruct (Hfeat e u eq_refl) as (f & Hdes & Hser).
      destruct (proj2 (last_is_Some (e :: u)) ltac:(done)) as [x Hx].
      assert (Hf : features_or_default (body tx) = f).
      { unfold features_or_default. cbn. by rewrite Hdes. }
      assert (Hu : unused_or_default (body tx) = u).
      { unfold unused_or_default. cbn. by destruct u. }
      rewrite (encode_reserved_trimmed tx e x); rewrite ?Hf, ?Hu; try done.
      by apply Hlast. }
  rewrite He. cbn [mbind result_bind]. f_equal.
  destruct d as [ct br ex cl gp g dep n ro]. cbn in Hr. subst ro.
  unfold Body_to_dict, set_reserved, tx. cbn.
  destruct (reserved_of_list r); cbn; by rewrite clause_dicts_round_trip.
Qed.

End DecodeThenEncode.

(** Whatever [decode] returns has no empty signature, and no signature at
    all when decoded as unsigned; its [Reserved], if any, has its features
    present, and its unused items, if any, are a list that is not empty and
    does not end in an empty item. *)
Theorem decode_result_shape `{codec : Codec}
    (raw : bytes) (unsigned : bool) (tx : Transaction) :
  decode raw unsigned = Ok tx →
  signature tx ≠ Some []
  ∧ (unsigned = true → signature tx = None)
  ∧ ∀ r, reserved (body tx) = Some r →
      is_Some (features r)
      ∧ unused r ≠ Some []
      ∧ ∀ u x, unused r = Some u → last u = Some x → length x ≠ 0%nat.
Proof.
  intros Hok0.
  destruct (decode_ok_inv raw unsigned tx Hok0) as (d & sig & _ & Hok & Hnone).
  destruct (decode_dict_inv d sig tx Hok) as (r & Hr & Hlast & Hfeat).
  rewrite (decode_dict_ok d sig r Hr Hlast Hfeat) in Hok.
  injection Hok as <-. cbn [signature body reserved].
  split; [|split].
  - by destruct sig as [[|??]|].
  - intros Hu. by rewrite (Hnone Hu).
  - intros r' Hr'. destruct r as [|e u]; [done|].
    cbn in Hr'. injection Hr' as <-. cbn [features unused].
    split; [by eapply Hfeat|]. split; [by destruct u|].
    intros u' x Hu Hx. destruct u as [|u0 u]; [done|]. injection Hu as <-.
    apply Hlast. by rewrite last_cons, Hx.
Qed.

Lemma decode_result_shape_witness :
  ∃ tx,
    @decode Reference.codec delegated_raw false = Ok tx
    ∧ signature tx ≠ Some []
    ∧ ∀ r, reserved (body tx) = Some r → is_Some (features r).
Proof.
  eexists. split; [by vm_compute|].
  match goal with
  | |- signature ?t ≠ _ ∧ _ =>
      destruct (@decode_result_shape Reference.codec delegated_raw false t)
        as (Hs & _ & Hr); [by vm_compute|]
  end.
  split; [exact Hs|]. intros r Hrr. by apply Hr.
Defined.

(** Encoding what was decoded hands the codec the dictionary it had
    returned, when the first item of the reserved list, if any, is the
    encoding of the features read from it: [decode] loses nothing that
    [encode] would need. *)
Theorem decode_then_wire_dict `{codec : Codec}
    (raw : bytes) (unsigned : bool) (d : BodyDict (list bytes))
    (tx : Transaction) :
  decoded_dict raw unsigned = Some d →
  decode raw unsigned = Ok tx →
  (∀ e u f, d_reserved d = Some (e :: u) →
     FeaturesKind_deserialize e = Some f → FeaturesKind_serialize f = Some e) →
  wire_dict tx = Ok d
  ∧ encode tx
    = lift SerializationError
        (match truthy_signature tx with
         | Some sig => SignedTx_encode d sig
         | None => UnsignedTx_encode d
         end).
Proof.
  intros Hd Hok Hcanon.
  assert (Hw : wire_dict tx = Ok d).
  { destruct (decode_of_decoded_dict raw unsigned d Hd) as (sig & Heq & _).
    rewrite Heq in Hok.
    destruct (decode_dict_inv d sig tx Hok) as (r & Hr & Hlast & Hfeat).
    rewrite (decode_dict_ok d sig r Hr Hlast Hfeat) in Hok.
    injection Hok as <-. apply wire_dict_rebuilt; [done | done|].
    intros e u ->. destruct (Hfeat e u eq_refl) as [f Hf].
    exists f. split; [done|]. by eapply Hcanon. }
  split; [exact Hw|].
  unfold wire_dict in Hw. unfold encode, truthy_signature.
  destruct (_encode_reserved tx) as [l|]; [|done].
  cbn [mbind result_bind] in *. injection Hw as <-.
  by destruct (signature tx) as [[|??]|].
Qed.

Lemma decode_then_wire_dict_witness :
  ∃ d tx,
    @decoded_dict Reference.codec delegated_raw false = Some d
    ∧ @decode Reference.codec delegated_raw false = Ok tx
    ∧ wire_dict tx = Ok d.
Proof.
  eexists _, _.
  split; [by vm_compute|]. split; [by vm_compute|].
  eapply (@decode_then_wire_dict Reference.codec delegated_raw false).
  - by vm_compute.
  - by vm_compute.
  - intros e u f [= <- <-]. vm_compute. by intros [= <-].
Defined.




(** ** Encoding: round trip on the wire, failures, the empty signature *)

Section EncodeOutcome.
Context {codec : Codec}.

(** A canonical reserved list is trimmed, and its first item, if any, is the
    encoding of the features. *)
Lemma encode_reserved_canonical (tx : Transaction) (l : list bytes) :
  _encode_reserved tx = Ok l →
  (∀ x, last l = Some x → length x ≠ 0%nat)
  ∧ (∀ e u, l = e :: u →
       ∃ f, FeaturesKind_deserialize e = Some f
            ∧ FeaturesKind_serialize f = Some e).
Proof.
  intros Hl.
  destruct (FeaturesKind_serialize (features_or_default (body tx)))
    as [e0|] eqn:He0.
  2:{ by rewrite encode_reserved_unfold, He0 in Hl. }
  destruct (encode_reserved_strip tx e0 He0)
    as (canon & dropped & Hc & Happ & _ & Hlast).
  rewrite Hl in Hc. injection Hc as <-.
  split; [exact Hlast|].
  intros e u ->. cbn in Happ. injection Happ as <- _.
  exists (features_or_default (body tx)). split; [|done].
  by destruct (NumericKind_round_trip _ _ _ He0).
Qed.

Lemma encode_of_wire_dict (tx : Transaction) (d : BodyDict (list bytes)) :
  wire_dict tx = Ok d →
  encode tx
  = lift SerializationError
      (match truthy_signature tx with
       | Some sig => SignedTx_encode d sig
       | None => UnsignedTx_encode d
       end).
Proof.
  unfold wire_dict, encode, truthy_signature.
  destruct (_encode_reserved tx) as [l|]; [|done].
  cbn [mbind result_bind]. intros [= <-].
  by destruct (signature tx) as [[|??]|].
Qed.

End EncodeOutcome.

(** For any [Reserved], trimmed or not, and any signature: when the codec
    decodes what it encodes for the transaction, [decode (encode tx)], with
    [unsigned] set when the signature is absent or empty, returns a
    transaction whose encoding is the same bytes; its signature is that of
    [tx], or none for an empty one. *)
Theorem reencoding_round_trip `{codec : Codec} (tx : Transaction) :
  codec_inverts_encode tx →
  ∃ raw tx',
    encode tx = Ok raw
    ∧ decode raw (bool_decide (truthy_signature tx = None)) = Ok tx'
    ∧ encode tx' = Ok raw
    ∧ wire_dict tx' = wire_dict tx
    ∧ signature tx' = truthy_signature tx.
Proof.
  intros (d & raw & Hd & Hcodec). exists raw.
  assert (Hshape : ∃ l, d_reserved d = Some l
    ∧ (∀ x, last l = Some x → length x ≠ 0%nat)
    ∧ (∀ e u, l = e :: u →
         ∃ f, FeaturesKind_deserialize e = Some f
              ∧ FeaturesKind_serialize f = Some e)).
  { unfold wire_dict in Hd.
    destruct (_encode_reserved tx) as [l|] eqn:Hl; [|done].
    cbn [mbind result_bind] in Hd. injection Hd as <-.
    exists l. split; [done|]. apply (encode_reserved_canonical tx l Hl). }
  destruct Hshape as (l & Hr & Hlast & Hfeat).
  assert (Hsome : ∀ e u, l = e :: u → is_Some (FeaturesKind_deserialize e)).
  { intros e u Hl. destruct (Hfeat e u Hl) as (f & Hf & _). eauto. }
  rewrite (encode_of_wire_dict tx d Hd), decode_codec_step, Hd.
  destruct (truthy_signature tx) as [sig|] eqn:Hsig.
  - destruct Hcodec as [Henc Hdec].
    assert (Htruthy : truthy_list sig = true).
    { unfold truthy_signature in Hsig.
      destruct (signature tx) as [[|??]|]; by simplify_eq/=. }
    rewrite Henc, bool_decide_eq_false_2, Hdec by done.
    rewrite (decode_dict_ok d (Some sig) l Hr Hlast Hsome), Htruthy.
    eexists. split; [done|]. split; [done|].
    pose proof (wire_dict_rebuilt d (Some sig) l Hr Hlast Hfeat) as Hw.
    split; [|by split].
    rewrite (encode_of_wire_dict _ d Hw). unfold truthy_signature. cbn [signature].
    by rewrite Htruthy, Henc.
  - destruct Hcodec as [Henc Hdec].
    rewrite Henc, bool_decide_eq_true_2, Hdec by done.
    rewrite (decode_dict_ok d None l Hr Hlast Hsome).
    eexists. split; [done|]. split; [done|].
    pose proof (wire_dict_rebuilt d None l Hr Hlast Hfeat) as Hw.
    split; [|by split].
    rewrite (encode_of_wire_dict _ d Hw). unfold truthy_signature. cbn [signature].
    by rewrite Henc.
Qed.

Lemma reencoding_round_trip_witness :
  @codec_inverts_encode Reference.codec padded_reserved_tx
  ∧ ∃ raw tx',
      @encode Reference.codec padded_reserved_tx = Ok raw
      ∧ @decode Reference.codec raw
          (bool_decide (truthy_signature padded_reserved_tx = None)) = Ok tx'
      ∧ @encode Reference.codec tx' = Ok raw
      ∧ wire_dict tx' = wire_dict padded_reserved_tx
      ∧ signature tx' = truthy_signature padded_reserved_tx.
Proof.
  assert (Hc : @codec_inverts_encode Reference.codec padded_reserved_tx).
  { eexists _, _. split; [by vm_compute|]. split; by vm_compute. }
  split; [exact Hc|].
  apply (@reencoding_round_trip Reference.codec padded_reserved_tx Hc).
Defined.

(** Encoding fails with the codec's serialization error and with nothing
    else: the loops of [_encode_reserved] stay inside the list, and
    [_encode_reserved] fails exactly when the features are not
    serializable. *)
Theorem encoding_failures `{codec : Codec} `{crypto : Crypto}
    (tx : Transaction) :
  (_encode_reserved tx = Raise SerializationError ↔
   FeaturesKind_serialize (features_or_default (body tx)) = None)
  ∧ (∀ ex, _encode_reserved tx = Raise ex → ex = SerializationError)
  ∧ (∀ ex, encode tx = Raise ex → ex = SerializationError)
  ∧ (∀ ex, get_signing_hash tx None = Raise ex → ex = SerializationError)
  ∧ (FeaturesKind_serialize (features_or_default (body tx)) = None →
     encode tx = Raise SerializationError
     ∧ get_signing_hash tx None = Raise SerializationError).
Proof.
  assert (Hiff : _encode_reserved tx = Raise SerializationError ↔
    FeaturesKind_serialize (features_or_default (body tx)) = None).
  { destruct (FeaturesKind_serialize (features_or_default (body tx)))
      as [e|] eqn:He.
    - destruct (encode_reserved_strip tx e He) as (canon & _ & -> & _). done.
    - by rewrite encode_reserved_unfold, He. }
  split; [exact Hiff|]. split; [|split; [|split]].
  - intros ex. destruct (encode_reserved_cases tx) as [[canon ->] | ->];
      intros ?; by simplify_eq.
  - intros ex. unfold encode.
    destruct (encode_reserved_cases tx) as [[canon ->] | ->];
      [|cbn; intros ?; by simplify_eq].
    cbn [mbind result_bind]. cbv zeta.
    destruct (signature tx) as [[|??]|]; cbn [truthy_list];
      [destruct (UnsignedTx_encode _) | destruct (SignedTx_encode _ _)
      | destruct (UnsignedTx_encode _)]; cbn; intros ?; by simplify_eq.
  - intros ex. rewrite get_signing_hash_plain.
    destruct (plain_signing_hash_cases tx) as [[h ->] | ->];
      intros ?; by simplify_eq.
  - intros Hnone. apply Hiff in Hnone.
    unfold encode, get_signing_hash. by rewrite Hnone.
Qed.

Lemma encoding_failures_witness :
  FeaturesKind_serialize (features_or_default (body wide_features_tx)) = None
  ∧ _encode_reserved wide_features_tx = Raise SerializationError
  ∧ @encode Reference.codec wide_features_tx = Raise SerializationError.
Proof.
  assert (Hn : FeaturesKind_serialize
                 (features_or_default (body wide_features_tx)) = None)
    by (by vm_compute).
  destruct (@encoding_failures Reference.codec Reference.crypto wide_features_tx)
    as (Hiff & _ & _ & _ & Henc).
  split; [exact Hn|]. split; [by apply Hiff | by apply Henc].
Defined.

(** A signature set to the empty byte string counts as no signature for
    [encode], which takes the unsigned schema, for the validity check and
    for the three recovery accessors, but not for [__eq__]; a decoded empty
    signature is dropped. *)
Theorem empty_signature_is_no_signature `{codec : Codec} `{crypto : Crypto}
    (b : Body) :
  let signed := set_signature (Transaction_init b) [] in
  let unsigned := Transaction_init b in
  encode signed = encode unsigned
  ∧ _signature_valid signed = false
  ∧ get_origin signed = Ok None
  ∧ get_delegator signed = Ok None
  ∧ get_id signed = Ok None
  ∧ __eq__ signed unsigned = false
  ∧ (∀ raw d tx, SignedTx_decode raw = Some (d, Some []) →
       decode raw false = Ok tx → signature tx = None).
Proof.
  cbv zeta.
  assert (Hv : _signature_valid (set_signature (Transaction_init b) []) = false)
    by done.
  split; [done|]. split; [done|].
  rewrite get_origin_eq, get_delegator_eq, get_id_eq.
  unfold origin_address. rewrite Hv.
  split; [done|]. split.
  { destruct (is_delegated _); [|done]. by destruct (plain_signing_hash _). }
  split; [by destruct (plain_signing_hash _)|].
  split; [done|].
  intros raw d tx Hdec. rewrite decode_codec_step, Hdec. intros Hok.
  destruct (decode_dict_inv d (Some []) tx Hok) as (r & Hr & Hlast & Hfeat).
  rewrite (decode_dict_ok d (Some []) r Hr Hlast Hfeat) in Hok.
  by injection Hok as <-.
Qed.

Lemma empty_signature_is_no_signature_witness :
  @encode Reference.codec empty_signature_tx = @encode Reference.codec plain_tx
  ∧ __eq__ empty_signature_tx plain_tx = false.
Proof.
  destruct (@empty_signature_is_no_signature Reference.codec Reference.crypto
              (body plain_tx)) as (He & _ & _ & _ & _ & Hq & _).
  split; [exact He | exact Hq].
Defined.


(** ** The signing hash and the accessors together *)

(** The plain signing hash is the hash of what [encode] gives for the same
    body without a signature; the signature that a transaction carries has
    no part in it. *)
Theorem signing_hash_of_unsigned_encoding `{codec : Codec} `{crypto : Crypto}
    (tx : Transaction) :
  get_signing_hash tx None
  = (raw ← encode (Transaction_init (body tx)); Ok (fst (blake2b256 [raw]))).
Proof.
  unfold get_signing_hash, encode, Transaction_init. cbn [body signature].
  assert (He : _encode_reserved {| body := body tx; signature := None |}
               = _encode_reserved tx) by done.
  rewrite He.
  destruct (_encode_reserved tx) as [l|]; [|done]. cbn [mbind result_bind].
  by destruct (UnsignedTx_encode _).
Qed.

(** A delegator is recovered only on a delegated transaction with a
    signature of 130 bytes whose origin is recovered too, is taken by the
    address validator, and whose id is present; an origin is recovered only
    with a signature of the required length. *)
Theorem delegator_needs_origin `{codec : Codec} `{crypto : Crypto}
    (tx : Transaction) :
  (is_delegated tx = false → get_delegator tx = Ok None)
  ∧ (∀ delegator, get_delegator tx = Ok (Some delegator) →
       is_delegated tx = true
       ∧ (∃ sig, signature tx = Some sig ∧ length sig = 130%nat)
       ∧ (∃ origin, get_origin tx = Ok (Some origin)
                    ∧ address_is_address origin = true)
       ∧ ∃ id, get_id tx = Ok (Some id))
  ∧ (∀ origin, get_origin tx = Ok (Some origin) →
       ∃ sig, signature tx = Some sig ∧ length sig = required_length tx).
Proof.
  rewrite get_delegator_eq, get_origin_eq, get_id_eq.
  assert (Hvalid : ∀ a, origin_address tx = Some a →
    ∃ sig, signature tx = Some sig ∧ length sig = required_length tx).
  { intros a. unfold origin_address.
    destruct (_signature_valid tx) eqn:Hv; [|done].
    intros _. by apply signature_valid_iff. }
  split; [by intros ->|]. split.
  - intros delegator Hd.
    destruct (is_delegated tx) eqn:Hdel; [|done].
    destruct (plain_signing_hash tx) as [h|]; [|done].
    destruct (origin_address tx) as [a|] eqn:Ha; [|done].
    destruct (Hvalid a eq_refl) as (sig & Hsig & Hlen).
    rewrite Hsig in Hd.
    destruct (address_is_address (address_text a)) eqn:Haddr; [|done].
    split; [done|]. split.
    + exists sig. split; [done|]. unfold required_length in Hlen.
      by rewrite Hdel in Hlen.
    + split; [by exists (address_text a) | by eexists].
  - intros origin Ho.
    destruct (origin_address tx) as [a|]; [|done]. by apply (Hvalid a).
Qed.

Lemma delegator_needs_origin_witness :
  @get_delegator Reference.codec Reference.crypto plain_tx = Ok None
  ∧ (∃ sig, signature delegated_tx = Some sig ∧ length sig = 130%nat)
  ∧ ∃ id, @get_id Reference.codec Reference.crypto delegated_tx = Ok (Some id).
Proof.
  destruct (@delegator_needs_origin Reference.codec Reference.crypto plain_tx)
    as (Hn & _ & _).
  destruct (@delegator_needs_origin Reference.codec Reference.crypto delegated_tx)
    as (_ & Hd & _).
  split; [by apply Hn|].
  destruct (Hd (address_text (replicate 20 Byte.x02))) as (_ & Hs & _ & Hi);
    [by vm_compute|].
  by split.
Defined.


Section RoundTripObservations.
Context {codec : Codec} {crypto : Crypto}.

Lemma clauses_of_dicts (cs : list Clause) :
  (λ each, mkClause (d_to each) (d_value each) (d_data each))
    <$> (Clause_to_dict <$> cs) = cs.
Proof. induction cs as [|[t v d] cs IH]; [done|]. cbn. by f_equal. Qed.

(** [decode (encode tx)], spelled out. *)
Lemma round_trip_result (tx : Transaction) :
  codec_inverts_encode tx →
  ∃ raw l,
    encode tx = Ok raw
    ∧ _encode_reserved tx = Ok l
    ∧ decode raw (bool_decide (truthy_signature tx = None))
      = Ok (decoded_form tx l).
Proof.
  intros (d & raw & Hd & Hcodec). exists raw.
  unfold wire_dict in Hd.
  destruct (_encode_reserved tx) as [l|] eqn:Hl; [|done].
  cbn [mbind result_bind] in Hd. injection Hd as <-.
  exists l.
  destruct (encode_reserved_canonical tx l Hl) as [Hlast Hfeat].
  assert (Hsome : ∀ e u, l = e :: u → is_Some (FeaturesKind_deserialize e)).
  { intros e u Hlu. destruct (Hfeat e u Hlu) as (f & Hf & _). eauto. }
  assert (Hw : wire_dict tx = Ok (set_reserved (Body_to_dict (body tx)) l)).
  { unfold wire_dict. by rewrite Hl. }
  rewrite (encode_of_wire_dict tx _ Hw), decode_codec_step.
  assert (Hform : ∀ sig,
    decode_dict (set_reserved (Body_to_dict (body tx)) l) sig
    = Ok (mkTransaction (body (with_reserved tx (reserved_of_list l)))
            (match sig with
             | Some s => if truthy_list s then Some s else None
             | None => None
             end))).
  { intros sig.
    assert (Hr : d_reserved (set_reserved (Body_to_dict (body tx)) l) = Some l)
      by done.
    rewrite (decode_dict_ok _ sig l Hr Hlast Hsome).
    do 2 f_equal. unfold Body_to_dict, with_reserved. cbn.
    destruct (reserved (body tx)); cbn; by rewrite clauses_of_dicts. }
  split; [|split; [done|]].
  - destruct (truthy_signature tx); by destruct Hcodec as [-> _].
  - unfold decoded_form.
    destruct (truthy_signature tx) as [sig|] eqn:Hsig.
    + destruct Hcodec as [_ Hdec].
      rewrite bool_decide_eq_false_2, Hdec by done. rewrite Hform.
      assert (Htruthy : truthy_list sig = true).
      { unfold truthy_signature in Hsig.
        destruct (signature tx) as [[|??]|]; by simplify_eq/=. }
      by rewrite Htruthy.
    + destruct Hcodec as [_ Hdec].
      rewrite bool_decide_eq_true_2, Hdec by done. by rewrite Hform.
Qed.

Lemma is_delegated_by_features (tx : Transaction) :
  is_delegated tx
  = bool_decide (Z.land (features_or_default (body tx)) 1 = 1).
Proof.
  unfold is_delegated, features_or_default, Body_to_dict, DELEGATED_MASK,
    truthy_int.
  destruct (reserved (body tx)) as [[[f|] [[|u us]|]]|]; cbn; try done;
    destruct (Z.eqb_spec f 0) as [->|Hf]; cbn; try done;
    destruct (Z.eqb_spec f 0); done.
Qed.

Lemma decoded_form_features (tx : Transaction) (l : list bytes) :
  _encode_reserved tx = Ok l →
  features_or_default (body (decoded_form tx l)) = features_or_default (body tx).
Proof.
  intros Hl.
  destruct (FeaturesKind_serialize (features_or_default (body tx)))
    as [e0|] eqn:He0.
  2:{ by rewrite encode_reserved_unfold, He0 in Hl. }
  destruct (NumericKind_round_trip _ _ _ He0) as [Hdes Hzero].
  destruct (encode_reserved_strip tx e0 He0)
    as (canon & dropped & Hc & Happ & Hd & _).
  rewrite Hl in Hc. injection Hc as <-.
  unfold decoded_form, with_reserved, features_or_default at 1. cbn.
  destruct l as [|e u]; cbn.
  - cbn in Happ. subst dropped. apply Forall_inv in Hd.
    symmetry. by apply Hzero.
  - cbn in Happ. injection Happ as <- _.
    fold FeaturesKind_deserialize in Hdes. by rewrite Hdes.
Qed.

End RoundTripObservations.

(** What comes back from the wire is the transaction with its [Reserved]
    read from the canonical list and without an empty signature, and it
    shows the same as the transaction did, also when the two are not equal
    for [__eq__]: the same clauses and intrinsic gas, delegation flag,
    signing hashes, origin, delegator and id. *)
Theorem round_trip_preserves_observations `{codec : Codec} `{crypto : Crypto}
    (tx : Transaction) :
  codec_inverts_encode tx →
  ∃ raw tx',
    encode tx = Ok raw
    ∧ decode raw (bool_decide (truthy_signature tx = None)) = Ok tx'
    ∧ clauses (body tx') = clauses (body tx)
    ∧ get_intrinsic_gas tx' = get_intrinsic_gas tx
    ∧ is_delegated tx' = is_delegated tx
    ∧ (∀ delegate_for,
         get_signing_hash tx' delegate_for = get_signing_hash tx delegate_for)
    ∧ get_origin tx' = get_origin tx
    ∧ get_delegator tx' = get_delegator tx
    ∧ get_id tx' = get_id tx.
Proof.
  intros Hcodec.
  destruct (round_trip_result tx Hcodec) as (raw & l & Henc & Hl & Hdec).
  exists raw, (decoded_form tx l).
  split; [done|]. split; [done|].
  destruct (encode_reserved_canonical tx l Hl) as [Hlast Hfeat].
  assert (Hw : wire_dict (decoded_form tx l) = wire_dict tx).
  { unfold wire_dict at 2. rewrite Hl. cbn [mbind result_bind].
    assert (Hr0 : d_reserved (set_reserved (Body_to_dict (body tx)) l) = Some l)
      by done.
    pose proof (wire_dict_rebuilt (set_reserved (Body_to_dict (body tx)) l)
                  (truthy_signature tx) l Hr0 Hlast Hfeat) as Hr.
    rewrite <- Hr. f_equal. unfold decoded_form, with_reserved, Body_to_dict.
    destruct (reserved (body tx)); cbn; by rewrite clauses_of_dicts. }
  assert (Hdel : is_delegated (decoded_form tx l) = is_delegated tx).
  { by rewrite !is_delegated_by_features, (decoded_form_features tx l Hl). }
  assert (Hp : plain_signing_hash (decoded_form tx l) = plain_signing_hash tx).
  { unfold plain_signing_hash. unfold wire_dict in Hw.
    destruct (_encode_reserved (decoded_form tx l)) as [l'|],
      (_encode_reserved tx) as [l0|]; cbn [mbind result_bind] in Hw |- *;
      congruence. }
  assert (Hh : ∀ delegate_for,
    get_signing_hash (decoded_form tx l) delegate_for
    = get_signing_hash tx delegate_for).
  { intros delegate_for. by rewrite !get_signing_hash_unfold, Hp. }
  assert (Hv : _signature_valid (decoded_form tx l) = _signature_valid tx).
  { unfold _signature_valid. rewrite Hdel.
    unfold get_signature, decoded_form, truthy_signature. cbn [signature].
    by destruct (signature tx) as [[|??]|]. }
  assert (Ho : origin_address (decoded_form tx l) = origin_address tx).
  { unfold origin_address. rewrite Hv, Hp.
    unfold decoded_form, truthy_signature. cbn [signature].
    destruct (signature tx) as [[|??]|] eqn:Hs; try done.
    assert (_signature_valid tx = false) as ->; [|done].
    unfold _signature_valid, get_signature. by rewrite Hs. }
  split; [done|]. split; [done|]. split; [done|]. split; [done|].
  rewrite !get_origin_eq, !get_delegator_eq, !get_id_eq, Ho, Hp, Hdel.
  split; [done|]. split; [|done].
  destruct (is_delegated tx); [|done].
  destruct (plain_signing_hash tx) as [h|]; [|done].
  destruct (origin_address tx) as [a|] eqn:Ha; [|done].
  unfold decoded_form, truthy_signature. cbn [signature].
  destruct (signature tx) as [[|??]|] eqn:Hs; try done.
  exfalso. unfold origin_address in Ha.
  assert (_signature_valid tx = false) as Hf; [|by rewrite Hf in Ha].
  unfold _signature_valid, get_signature. by rewrite Hs.
Qed.

Lemma round_trip_preserves_observations_witness :
  @codec_inverts_encode Reference.codec empty_reserved_tx
  ∧ ∃ raw tx',
      @encode Reference.codec empty_reserved_tx = Ok raw
      ∧ @decode Reference.codec raw
          (bool_decide (truthy_signature empty_reserved_tx = None)) = Ok tx'
      ∧ is_delegated tx' = is_delegated empty_reserved_tx
      ∧ @get_id Reference.codec Reference.crypto tx'
        = @get_id Reference.codec Reference.crypto empty_reserved_tx.
Proof.
  assert (Hc : @codec_inverts_encode Reference.codec empty_reserved_tx).
  { eexists _, _. split; [by vm_compute|]. split; by vm_compute. }
  split; [exact Hc|].
  destruct (@round_trip_preserves_observations Reference.codec Reference.crypto
              empty_reserved_tx Hc)
    as (raw & tx' & He & Hd & _ & _ & Hdel & _ & _ & _ & Hid).
  by exists raw, tx'.
Defined.

(** The failures of [get_signing_hash] come in this order: the
    serialization error of a body that cannot be encoded, whatever the
    delegate; then the invalid-delegate error, for a delegate that is not
    empty and that the validator refuses; then [ValueError], only when the
    validator took a delegate whose characters after the second are not
    hexadecimal text. *)
Theorem signing_hash_failures `{codec : Codec} `{crypto : Crypto}
    (tx : Transaction) (delegate_for : option string) :
  (plain_signing_hash tx = Raise SerializationError →
   get_signing_hash tx delegate_for = Raise SerializationError)
  ∧ (∀ ex, get_signing_hash tx delegate_for = Raise ex →
       (ex = SerializationError
        ∧ plain_signing_hash tx = Raise SerializationError)
       ∨ (∃ s, delegate_for = Some s ∧ s ≠ ""%string
               ∧ ex = InvalidDelegateAddress
               ∧ address_is_address s = false)
       ∨ (∃ s, delegate_for = Some s ∧ s ≠ ""%string
               ∧ ex = ValueError
               ∧ address_is_address s = true
               ∧ bytes_fromhex (str_from 2 s) = None)).
Proof.
  rewrite get_signing_hash_unfold.
  destruct (plain_signing_hash_cases tx) as [[h ->] | ->].
  2:{ split; [done|]. intros ex [= <-]. by left. }
  split; [done|]. cbn [mbind result_bind]. intros ex.
  destruct delegate_for as [s|]; [|done].
  unfold truthy_str. case_bool_decide as Hs; cbn [negb]; [done|].
  destruct (address_is_address s) eqn:Haddr; cbn [negb].
  - destruct (bytes_fromhex (str_from 2 s)) eqn:Hraw; [done|].
    cbn. intros [= <-]. right. right. by exists s.
  - intros [= <-]. right. left. by exists s.
Qed.

Lemma signing_hash_failures_witness :
  @plain_signing_hash Reference.codec Reference.crypto wide_features_tx
  = Raise SerializationError
  ∧ @get_signing_hash Reference.codec Reference.crypto wide_features_tx
      (Some "not an address"%string)
    = Raise SerializationError.
Proof.
  assert (Hp : @plain_signing_hash Reference.codec Reference.crypto
                 wide_features_tx = Raise SerializationError)
    by (by vm_compute).
  split; [exact Hp|].
  by apply (@signing_hash_failures Reference.codec Reference.crypto).
Defined.
